(** * deco.py: stacked function decorators

    A shallow embedding of [deco.py]: the decorators [countcalls], [n_ary],
    [memo] and [trace], and the demo functions [foo], [bar] and [fib] built
    from them, with [main].

    Python function objects carry attributes ([wrapper.calls],
    [wrapper.results], [decorator.depth]) that the wrappers read and write,
    and [functools.update_wrapper] copies them between objects.  The model
    keeps these objects in an explicit heap and runs every call in a state
    and exception monad over that heap: a decorator becomes a function from
    function values to function values together with what it does to the
    heap when the module is loaded.

    The first part holds the definitions, the second the proofs: the
    arithmetic of the demo functions, the contract of [n_ary], what [memo]
    caches and when the wrapped function runs, what the counters count,
    and the shape of the trace. *)

From stdpp Require Import base gmap strings list fin_maps pretty.

Local Open Scope Z_scope.

(** ** Object heap *)

(** Identity of a function object, and of a dictionary object. *)
Abbreviation fid := nat (only parsing).
Abbreviation loc := nat (only parsing).

(** A memo cache key: [(func, args, tuple(kwargs.items()))]. *)
Abbreviation key := (nat * list Z * list (string * Z))%type (only parsing).

(** Values found in a function object's [__dict__]. *)
Inductive attr :=
| AInt (z : Z)
| ADict (d : loc)
| AFunc (f : fid).

(** A function object: the metadata [update_wrapper] assigns and the
    attribute dictionary it updates. *)
Record funobj := FunObj {
  fn_name : string;
  fn_doc : option string;
  fn_dict : gmap string attr
}.

Record heap := Heap {
  funcs : gmap nat funobj;
  dicts : gmap nat (gmap (nat * list Z * list (string * Z)) Z);
  out : list string
}.

Definition empty_heap : heap := Heap ∅ ∅ [].

(** ** Exceptions and the call monad *)

Inductive exn :=
| TypeError_missing_argument (param : string)
| TypeError_unexpected_keyword (name : string)
| TypeError_multiple_values (param : string)
| TypeError_too_many_positional
| TypeError_operand
| ValueError_unpack (expected got : nat)
| AttributeError (name : string)
| KeyError
| RecursionDepthExceeded.

Inductive outcome (A : Type) :=
| Ok (a : A)
| Raise (e : exn).
Arguments Ok {A} a.
Arguments Raise {A} e.

Definition M (A : Type) : Type := heap → outcome A * heap.

Global Instance M_ret : MRet M := λ A a h, (Ok a, h).
Global Instance M_bind : MBind M := λ A B k m h,
  match m h with
  | (Ok a, h') => k a h'
  | (Raise e, h') => (Raise e, h')
  end.
Definition raise {A} (e : exn) : M A := λ h, (Raise e, h).
Definition lift {A} (o : outcome A) : M A := λ h, (o, h).

(** A callable takes the positional arguments and the keyword arguments
    (in the order they were passed). *)
Definition callable : Type := list Z → list (string * Z) → M Z.

(** A function value: the object's identity and what calling it does. *)
Record function := Function {
  f_id : fid;
  f_call : callable
}.

(** ** Heap primitives *)

(** [def name(...)]: a new function object with an empty [__dict__]. *)
Definition new_function (f : fid) (name : string) (doc : option string) : M unit :=
  λ h, (Ok tt, Heap (<[f := FunObj name doc ∅]> (funcs h)) (dicts h) (out h)).

(** [getattr(f, name)] for an attribute kept in [f.__dict__]. *)
Definition getattr (f : fid) (name : string) : M attr :=
  λ h, match funcs h !! f with
       | Some o => match fn_dict o !! name with
                   | Some a => (Ok a, h)
                   | None => (Raise (AttributeError name), h)
                   end
       | None => (Raise (AttributeError name), h)
       end.

(** [f.name = a] *)
Definition setattr (f : fid) (name : string) (a : attr) : M unit :=
  λ h, match funcs h !! f with
       | Some o =>
           (Ok tt, Heap (<[f := FunObj (fn_name o) (fn_doc o) (<[name := a]> (fn_dict o))]> (funcs h))
                        (dicts h) (out h))
       | None => (Raise (AttributeError name), h)
       end.

(** [f.__name__] *)
Definition get_name (f : fid) : M string :=
  λ h, match funcs h !! f with
       | Some o => (Ok (fn_name o), h)
       | None => (Raise (AttributeError "__name__"), h)
       end.

(** [f.__doc__] *)
Definition get_doc (f : fid) : M (option string) :=
  λ h, match funcs h !! f with
       | Some o => (Ok (fn_doc o), h)
       | None => (Raise (AttributeError "__doc__"), h)
       end.

Definition as_int (a : attr) : M Z :=
  match a with AInt z => mret z | _ => raise TypeError_operand end.

Definition as_dict (a : attr) : M loc :=
  match a with ADict d => mret d | _ => raise TypeError_operand end.

(** [{}]: a new empty dictionary at [d]. *)
Definition new_dict (d : loc) : M unit :=
  λ h, (Ok tt, Heap (funcs h) (<[d := ∅]> (dicts h)) (out h)).

(** [k in d] *)
Definition dict_contains (d : loc) (k : key) : M bool :=
  λ h, match dicts h !! d with
       | Some m => (Ok (bool_decide (is_Some (m !! k))), h)
       | None => (Raise TypeError_operand, h)
       end.

(** [d[k]] *)
Definition dict_getitem (d : loc) (k : key) : M Z :=
  λ h, match dicts h !! d with
       | Some m => match m !! k with
                   | Some v => (Ok v, h)
                   | None => (Raise KeyError, h)
                   end
       | None => (Raise TypeError_operand, h)
       end.

(** [d[k] = v] *)
Definition dict_setitem (d : loc) (k : key) (v : Z) : M unit :=
  λ h, match dicts h !! d with
       | Some m => (Ok tt, Heap (funcs h) (<[d := <[k := v]> m]> (dicts h)) (out h))
       | None => (Raise TypeError_operand, h)
       end.

(** [print(a, b, ...)]: the arguments' strings separated by single spaces,
    written as one line. *)
Definition print (parts : list string) : M unit :=
  λ h, (Ok tt, Heap (funcs h) (dicts h) (out h ++ [String.concat " " parts])).

(** [functools.update_wrapper(wrapper, wrapped)]: assign [__name__] and
    [__doc__], update [wrapper.__dict__] with [wrapped.__dict__], set
    [wrapper.__wrapped__], return [wrapper]. *)
Definition update_wrapper (wrapper wrapped : fid) : M fid :=
  λ h, match funcs h !! wrapper, funcs h !! wrapped with
       | Some w, Some f =>
           (Ok wrapper,
            Heap (<[wrapper := FunObj (fn_name f) (fn_doc f)
                                 (<["__wrapped__" := AFunc wrapped]> (fn_dict f ∪ fn_dict w))]>
                    (funcs h))
                 (dicts h) (out h))
       | _, _ => (Raise (AttributeError "__dict__"), h)
       end.

(** ** Argument binding

    How a call with positional arguments [args] and keyword arguments
    [kwargs] fills the parameters of a [def] with parameters [p1, ..., pn],
    optionally followed by a starred parameter: positional
    arguments first, then each keyword in the order passed, then the check
    for too many positional arguments and for parameters left unbound. *)

Fixpoint bind_positional (params : list string) (args : list Z)
  : list (string * option Z) * list Z :=
  match params with
  | [] => ([], args)
  | p :: ps =>
      match args with
      | [] => ((p, None) :: (bind_positional ps []).1, [])
      | a :: rest => ((p, Some a) :: (bind_positional ps rest).1, (bind_positional ps rest).2)
      end
  end.

Fixpoint bind_keyword (env : list (string * option Z)) (k : string) (v : Z)
  : outcome (list (string * option Z)) :=
  match env with
  | [] => Raise (TypeError_unexpected_keyword k)
  | (p, o) :: env' =>
      if decide (p = k) then
        match o with
        | Some _ => Raise (TypeError_multiple_values k)
        | None => Ok ((p, Some v) :: env')
        end
      else
        match bind_keyword env' k v with
        | Ok env'' => Ok ((p, o) :: env'')
        | Raise e => Raise e
        end
  end.

Fixpoint bind_keywords (env : list (string * option Z)) (kwargs : list (string * Z))
  : outcome (list (string * option Z)) :=
  match kwargs with
  | [] => Ok env
  | (k, v) :: kwargs' =>
      match bind_keyword env k v with
      | Ok env' => bind_keywords env' kwargs'
      | Raise e => Raise e
      end
  end.

Fixpoint bound_values (env : list (string * option Z)) : outcome (list Z) :=
  match env with
  | [] => Ok []
  | (p, None) :: _ => Raise (TypeError_missing_argument p)
  | (p, Some v) :: env' =>
      match bound_values env' with
      | Ok vs => Ok (v :: vs)
      | Raise e => Raise e
      end
  end.

(** Returns the parameters' values in order, and the extra positional
    arguments collected by the starred parameter when the signature has one. *)
Definition bind_args (params : list string) (varargs : bool)
    (args : list Z) (kwargs : list (string * Z)) : outcome (list Z * list Z) :=
  let extra := (bind_positional params args).2 in
  match bind_keywords (bind_positional params args).1 kwargs with
  | Raise e => Raise e
  | Ok env =>
      if negb varargs && bool_decide (extra ≠ []) then Raise TypeError_too_many_positional
      else
        match bound_values env with
        | Ok vs => Ok (vs, extra)
        | Raise e => Raise e
        end
  end.

(** ** The decorators *)

(** *** countcalls *)

(** The inner [wrapper] of [countcalls]; [self] is the wrapper object,
    whose own attribute [calls] it increments before delegating. *)
Definition countcalls_wrapper (self : fid) (func : function) : callable :=
  λ args kwargs,
    c ← getattr self "calls" ≫= as_int;
    setattr self "calls" (AInt (c + 1));;
    f_call func args kwargs.

Definition countcalls (self : fid) (func : function) : M function :=
  new_function self "wrapper" None;;
  setattr self "calls" (AInt 0);;
  update_wrapper self (f_id func);;
  mret (Function self (countcalls_wrapper self func)).

(** *** n_ary *)

(** [x if not args else func(x, wrapper( *args))], with [x] and [args]
    already bound.  The inner call names the local [wrapper], so the
    recursion never leaves this function. *)
Fixpoint n_ary_fold (func : function) (x : Z) (args : list Z) : M Z :=
  match args with
  | [] => mret x
  | y :: rest => r ← n_ary_fold func y rest; f_call func [x; r] []
  end.

(** The inner [wrapper(x, *args)] of [n_ary]. *)
Definition n_ary_wrapper (func : function) : callable :=
  λ args kwargs,
    '(vs, rest) ← lift (bind_args ["x"] true args kwargs);
    match vs with
    | [x] => n_ary_fold func x rest
    | _ => raise TypeError_operand
    end.

Definition n_ary (self : fid) (func : function) : M function :=
  new_function self "wrapper" None;;
  update_wrapper self (f_id func);;
  mret (Function self (n_ary_wrapper func)).

(** *** memo *)

(** The key [(func, args, tuple(kwargs.items()))] of a call. *)
Definition memo_key (func : function) (args : list Z) (kwargs : list (string * Z))
  : nat * list Z * list (string * Z) := (f_id func, args, kwargs).

(** The inner [wrapper] of [memo]; [self] is the wrapper object, which
    holds the cache in its attribute [results]. *)
Definition memo_wrapper (self : fid) (func : function) : callable :=
  λ args kwargs,
    let key := memo_key func args kwargs in
    d ← getattr self "results" ≫= as_dict;
    present ← dict_contains d key;
    (if negb present then
       v ← f_call func args kwargs;
       d ← getattr self "results" ≫= as_dict;
       dict_setitem d key v;;
       update_wrapper self (f_id func);;
       mret tt
     else mret tt);;
    d ← getattr self "results" ≫= as_dict;
    dict_getitem d key.

(** The dictionary made by [wrapper.results = {}] is named after the
    wrapper that creates it. *)
Definition memo (self : fid) (func : function) : M function :=
  new_function self "wrapper" None;;
  new_dict self;;
  setattr self "results" (ADict self);;
  update_wrapper self (f_id func);;
  mret (Function self (memo_wrapper self func)).

(** *** trace *)

(** [str(n)] for an integer. *)
Definition str (n : Z) : string := pretty n.

(** [tab * depth] *)
Definition str_mul (tab : string) (depth : Z) : string :=
  String.concat "" (replicate (Z.to_nat depth) tab).

(** [key, value = s]: unpacking a string into two targets succeeds only
    for a string of two characters. *)
Definition unpack2 (s : string) : outcome (string * string) :=
  match s with
  | String a (String b EmptyString) => Ok (String a EmptyString, String b EmptyString)
  | _ => Raise (ValueError_unpack 2 (String.length s))
  end.

(** [['%s=%s'%(key, str(value)) for key, value in kwargs]]: iterating the
    dictionary [kwargs] yields its keys, and each key is unpacked. *)
Fixpoint kwargs_parts (kwargs : list (string * Z)) : outcome (list string) :=
  match kwargs with
  | [] => Ok []
  | (name, _) :: rest =>
      match unpack2 name with
      | Ok (key, value) =>
          match kwargs_parts rest with
          | Ok parts => Ok ((key +:+ "=" +:+ value) :: parts)
          | Raise e => Raise e
          end
      | Raise e => Raise e
      end
  end.

Definition nonempty (s : string) : bool :=
  match s with EmptyString => false | _ => true end.

(** The rendering [full_str] of a call's arguments: [args_str] and
    [kwargs_str] joined by a comma when both are non-empty. *)
Definition args_string (args : list Z) (kwargs : list (string * Z)) : outcome string :=
  let args_str := String.concat "," (str <$> args) in
  match kwargs_parts kwargs with
  | Ok parts =>
      let kwargs_str := String.concat "," parts in
      Ok (if nonempty args_str && nonempty kwargs_str
          then args_str +:+ "," +:+ kwargs_str
          else args_str +:+ kwargs_str)
  | Raise e => Raise e
  end.

(** The inner [wrapper] of [trace(tab)]'s [decorator]; [decorator] is the
    decorator object, which holds [depth]. *)
Definition trace_wrapper (tab : string) (decorator : fid) (func : function) : callable :=
  λ args kwargs,
    full_str ← lift (args_string args kwargs);
    d ← getattr decorator "depth" ≫= as_int;
    setattr decorator "depth" (AInt (d + 1));;
    d ← getattr decorator "depth" ≫= as_int;
    name ← get_name (f_id func);
    print [str_mul tab d; "-->"; name; "(" +:+ full_str +:+ ")"];;
    result ← f_call func args kwargs;
    d ← getattr decorator "depth" ≫= as_int;
    name ← get_name (f_id func);
    print [str_mul tab d; "<--"; name; "(" +:+ full_str +:+ ")"; "=="; str result];;
    d ← getattr decorator "depth" ≫= as_int;
    setattr decorator "depth" (AInt (d - 1));;
    mret result.

Definition trace_decorator (tab : string) (decorator self : fid) (func : function)
  : M function :=
  new_function self "wrapper" None;;
  update_wrapper self (f_id func);;
  mret (Function self (trace_wrapper tab decorator func)).

Definition trace (tab : string) (decorator : fid) : M (fid → function → M function) :=
  new_function decorator "decorator" None;;
  setattr decorator "depth" (AInt 0);;
  mret (trace_decorator tab decorator).

(** ** The demo functions *)

(** Object identities, in the order the module creates them. *)
Definition foo_raw : fid := 1%nat.
Definition foo_nary : fid := 2%nat.
Definition foo_count : fid := 3%nat.
Definition foo_memo : fid := 4%nat.
Definition bar_raw : fid := 5%nat.
Definition bar_nary : fid := 6%nat.
Definition bar_memo : fid := 7%nat.
Definition bar_count : fid := 8%nat.
Definition fib_decorator : fid := 9%nat.
Definition fib_raw : fid := 10%nat.
Definition fib_memo : fid := 11%nat.
Definition fib_trace : fid := 12%nat.
Definition fib_count : fid := 13%nat.

(** [def foo(a, b): return a + b] *)
Definition foo_body : callable :=
  λ args kwargs,
    '(vs, _) ← lift (bind_args ["a"; "b"] false args kwargs);
    match vs with
    | [a; b] => mret (a + b)
    | _ => raise TypeError_operand
    end.

(** [def bar(a, b): return a * b] *)
Definition bar_body : callable :=
  λ args kwargs,
    '(vs, _) ← lift (bind_args ["a"; "b"] false args kwargs);
    match vs with
    | [a; b] => mret (a * b)
    | _ => raise TypeError_operand
    end.

(** [def fib(n): return 1 if n <= 1 else fib(n-1) + fib(n-2)], where the
    name [fib] in the body is looked up in the module when the body runs:
    [fib_global] is what the module binds to that name. *)
Definition fib_body (fib_global : function) : callable :=
  λ args kwargs,
    '(vs, _) ← lift (bind_args ["n"] false args kwargs);
    match vs with
    | [n] =>
        if bool_decide (n ≤ 1) then mret 1
        else
          a ← f_call fib_global [n - 1] [];
          b ← f_call fib_global [n - 2] [];
          mret (a + b)
    | _ => raise TypeError_operand
    end.

Definition fib_doc : string := "
    Returns n-th Fibonacci number
    :param n: int
    :return: n-th Fibonacci number
    ".

(** [@memo @countcalls @n_ary def foo] *)
Definition foo : function :=
  Function foo_memo
    (memo_wrapper foo_memo
       (Function foo_count
          (countcalls_wrapper foo_count
             (Function foo_nary
                (n_ary_wrapper (Function foo_raw foo_body)))))).

(** [@countcalls @memo @n_ary def bar] *)
Definition bar : function :=
  Function bar_count
    (countcalls_wrapper bar_count
       (Function bar_memo
          (memo_wrapper bar_memo
             (Function bar_nary
                (n_ary_wrapper (Function bar_raw bar_body)))))).

(** [@countcalls @trace("####") @memo def fib].  The body calls the module's
    [fib], which is this very function; [fuel] bounds how deep these calls
    may nest. *)
Fixpoint fib (fuel : nat) : function :=
  Function fib_count
    match fuel with
    | O => λ _ _, raise RecursionDepthExceeded
    | S fuel' =>
        countcalls_wrapper fib_count
          (Function fib_trace
             (trace_wrapper "####" fib_decorator
                (Function fib_memo
                   (memo_wrapper fib_memo
                      (Function fib_raw (fib_body (fib fuel')))))))
    end.

(** What loading the module does: each [def] followed by its decorators,
    innermost first. *)
Definition load_foo : M function :=
  new_function foo_raw "foo" None;;
  f ← n_ary foo_nary (Function foo_raw foo_body);
  f ← countcalls foo_count f;
  memo foo_memo f.

Definition load_bar : M function :=
  new_function bar_raw "bar" None;;
  f ← n_ary bar_nary (Function bar_raw bar_body);
  f ← memo bar_memo f;
  countcalls bar_count f.

Definition load_fib (fib_global : function) : M function :=
  dec ← trace "####" fib_decorator;
  new_function fib_raw "fib" (Some fib_doc);;
  f ← memo fib_memo (Function fib_raw (fib_body fib_global));
  f ← dec fib_trace f;
  countcalls fib_count f.

Definition load_module : M unit :=
  load_foo;; load_bar;; load_fib (fib 0);; mret tt.

(** The heap once the module is loaded. *)
Definition module_heap : heap := (load_module empty_heap).2.

(** [main()] *)
Definition main (fuel : nat) : M unit :=
  r ← f_call foo [4; 3] []; print [str r];;
  r ← f_call foo [4; 3; 2] []; print [str r];;
  r ← f_call foo [4; 3] []; print [str r];;
  c ← getattr (f_id foo) "calls" ≫= as_int;
  print ["foo was called"; str c; "times"];;
  r ← f_call bar [4; 3] []; print [str r];;
  r ← f_call bar [4; 3; 2] []; print [str r];;
  r ← f_call bar [4; 3; 2; 1] []; print [str r];;
  c ← getattr (f_id bar) "calls" ≫= as_int;
  print ["bar was called"; str c; "times"];;
  doc ← get_doc (f_id (fib fuel));
  print [default "None" doc];;
  f_call (fib fuel) [5] [];;
  c ← getattr (f_id (fib fuel)) "calls" ≫= as_int;
  print [str c; "calls made"].

(** ** Reading the heap *)

(** The attribute [name] of function object [f], if it has one. *)
Definition attr_of (f : fid) (name : string) (h : heap) : option attr :=
  o ← funcs h !! f; fn_dict o !! name.

(** The name of function object [f], if the object exists. *)
Definition name_of (f : fid) (h : heap) : option string := fn_name <$> funcs h !! f.

(** The cache of the memo wrapper [self]: the dictionary its [results]
    attribute points to. *)
Definition cache_of (self : fid) (h : heap) : option (gmap (nat * list Z * list (string * Z)) Z) :=
  match attr_of self "results" h with
  | Some (ADict d) => dicts h !! d
  | _ => None
  end.

(** The cache of [self] holds [v] for the call of [func] with these
    arguments. *)
Definition cached (self : fid) (func : function) (args : list Z)
    (kwargs : list (string * Z)) (v : Z) (h : heap) : Prop :=
  ∃ m, cache_of self h = Some m ∧ m !! memo_key func args kwargs = Some v.

(** Calling [f] on each argument list in turn, whether or not a call
    raises; the heap after the last call. *)
Definition invoke_all (f : function) (calls : list (list Z * list (string * Z)))
    (h : heap) : heap :=
  foldl (λ h c, (f_call f c.1 c.2 h).2) h calls.

(** ** Reference definitions *)

(** The Fibonacci numbers as the specification gives them:
    [fib(0) = fib(1) = 1], [fib(n) = fib(n-1) + fib(n-2)] otherwise. *)
Fixpoint fib_spec (n : nat) : Z :=
  match n with
  | O => 1
  | S m => match m with
           | O => 1
           | S k => fib_spec m + fib_spec k
           end
  end.

(** The right fold [f(x1, f(x2, ... f(x(n-1), xn)))] of a pure binary
    operation. *)
Fixpoint fold_right1 (op : Z → Z → Z) (x : Z) (rest : list Z) : Z :=
  match rest with
  | [] => x
  | y :: rest' => op x (fold_right1 op y rest')
  end.

(** The text of a trace line as the interface description gives it:
    indentation, a space, the marker, a space, then the name immediately
    followed by the parenthesised arguments. *)
Definition spec_entry_line (tab : string) (depth : Z) (name full_str : string) : string :=
  str_mul tab depth +:+ " --> " +:+ name +:+ "(" +:+ full_str +:+ ")".

Definition spec_exit_line (tab : string) (depth : Z) (name full_str : string) (result : Z)
  : string :=
  str_mul tab depth +:+ " <-- " +:+ name +:+ "(" +:+ full_str +:+ ") == " +:+ str result.

(** The lines the two [print] calls of [trace]'s wrapper write. *)
Definition entry_line (tab : string) (depth : Z) (name full_str : string) : string :=
  String.concat " " [str_mul tab depth; "-->"; name; "(" +:+ full_str +:+ ")"].

Definition exit_line (tab : string) (depth : Z) (name full_str : string) (result : Z)
  : string :=
  String.concat " " [str_mul tab depth; "<--"; name; "(" +:+ full_str +:+ ")"; "=="; str result].

(** Properly nested trace output at a given depth: a sequence of calls,
    each an entry line, the output of the calls nested one level deeper,
    and the exit line of the same call at the same depth. *)
Inductive well_nested (tab name : string) : Z → list string → Prop :=
| wn_done depth : well_nested tab name depth []
| wn_call depth full_str result inner rest :
    well_nested tab name (depth + 1) inner →
    well_nested tab name depth rest →
    well_nested tab name depth
      (entry_line tab depth name full_str :: inner
         ++ exit_line tab depth name full_str result :: rest).

(** ** Heap updates

    The heaps the writing primitives produce when they succeed. *)

Definition heap_setattr (f : fid) (name : string) (a : attr) (h : heap) : heap :=
  (setattr f name a h).2.

Definition heap_update_wrapper (wrapper wrapped : fid) (h : heap) : heap :=
  (update_wrapper wrapper wrapped h).2.

Definition heap_setitem (d : loc) (k : nat * list Z * list (string * Z)) (v : Z)
    (h : heap) : heap :=
  (dict_setitem d k v h).2.

Definition heap_print (line : string) (h : heap) : heap :=
  Heap (funcs h) (dicts h) (out h ++ [line]).

(** The heap on which [trace]'s wrapper calls the traced function: [depth]
    is one more than it was and the entry line is written. *)
Definition trace_enter (tab : string) (decorator : fid) (d : Z) (name full_str : string)
    (h : heap) : heap :=
  heap_print (entry_line tab (d + 1) name full_str)
    (heap_setattr decorator "depth" (AInt (d + 1)) h).

(** The heap in which it returns: the exit line is written and [depth] is
    one less. *)
Definition trace_leave (tab : string) (decorator : fid) (d : Z) (name full_str : string)
    (result : Z) (h : heap) : heap :=
  heap_setattr decorator "depth" (AInt (d - 1))
    (heap_print (exit_line tab d name full_str result) h).

(** ** The state of [fib]'s wrappers *)

(** [fib_spec] on integers; [fib] returns 1 for every [n <= 1]. *)
Definition fib_value (n : Z) : Z := fib_spec (Z.to_nat n).

(** What [fib]'s wrappers need of the heap: the counter, the depth, the
    cache, and the names and attributes [update_wrapper] copies. *)
Record fib_heap (h : heap) (calls depth : Z)
    (m : gmap (nat * list Z * list (string * Z)) Z) : Prop := FibHeap {
  fh_calls : attr_of fib_count "calls" h = Some (AInt calls);
  fh_depth : attr_of fib_decorator "depth" h = Some (AInt depth);
  fh_results : attr_of fib_memo "results" h = Some (ADict fib_memo);
  fh_name : name_of fib_memo h = Some "fib";
  fh_raw_name : name_of fib_raw h = Some "fib";
  fh_raw_results : attr_of fib_raw "results" h = None;
  fh_cache : dicts h !! fib_memo = Some m
}.

(** Every cached result of [fib] is the Fibonacci number of its argument. *)
Definition cache_sound (m : gmap (nat * list Z * list (string * Z)) Z) : Prop :=
  ∀ n v, m !! (fib_raw, [n], []) = Some v → v = fib_value n.

(** The trace of one call at [depth]: its entry line, the properly nested
    output [inner] of the calls it makes, its exit line. *)
Definition call_block (tab name : string) (depth : Z) (full_str : string) (result : Z)
    (inner : list string) : list string :=
  entry_line tab depth name full_str :: inner ++ [exit_line tab depth name full_str result].

(** ** Fuel *)

(** An outcome that is not the exhaustion of the fuel. *)
Definition finished {A} (o : outcome A) : Prop := o ≠ Raise RecursionDepthExceeded.

(** [m'] does what [m] does wherever [m] finishes. *)
Definition extends {A} (m m' : M A) : Prop :=
  ∀ h o h', m h = (o, h') → finished o → m' h = (o, h').

(** ** Functions that leave the heap alone *)

Definition pure_callable (g : callable) : Prop :=
  ∀ args kwargs h, g args kwargs h = ((g args kwargs empty_heap).1, h).

(** ** Frames *)

(** Running [m] leaves the observation [obs] of the heap as it was,
    whatever the outcome. *)
Definition keeps {A X} (obs : heap → X) (m : M A) : Prop :=
  ∀ h o h', m h = (o, h') → obs h' = obs h.

(** The wrapped function [func] is in place for the memo wrapper [self]:
    its object exists and has no [results] attribute of its own that
    [update_wrapper] would copy over the wrapper's. *)
Definition memo_ready (func : function) (h : heap) : Prop :=
  is_Some (name_of (f_id func) h) ∧ attr_of (f_id func) "results" h = None.

(** The wrapped function leaves the wrapper's cache alone or extends it. *)
Definition cache_respecting (self : fid) (func : function) : Prop :=
  ∀ args kwargs h o h' m,
    memo_ready func h → cache_of self h = Some m →
    f_call func args kwargs h = (o, h') →
    memo_ready func h' ∧ ∃ m', cache_of self h' = Some m' ∧ m ⊆ m'.

(** ** The state of [foo]'s and [bar]'s wrappers *)

(** The function [foo]'s memo wrapper wraps: the counting wrapper. *)
Definition foo_counted : function :=
  Function foo_count
    (countcalls_wrapper foo_count
       (Function foo_nary (n_ary_wrapper (Function foo_raw foo_body)))).

Record foo_heap (h : heap) (calls : Z)
    (m : gmap (nat * list Z * list (string * Z)) Z) : Prop := FooHeap {
  oh_calls : attr_of foo_count "calls" h = Some (AInt calls);
  oh_count_results : attr_of foo_count "results" h = None;
  oh_results : attr_of foo_memo "results" h = Some (ADict foo_memo);
  oh_cache : dicts h !! foo_memo = Some m
}.

(** ** Two runs on the loaded module *)

(** The heap after [fib(3)], and after [fib(5)], on the loaded module. *)
Definition fib3_heap : heap := (f_call (fib 4) [3] [] module_heap).2.
Definition fib5_heap : heap := (f_call (fib 6) [5] [] module_heap).2.


(** ** Further definitions *)

(** The key of the call [fib(n)] in [fib]'s cache. *)
Definition fib_key (n : Z) : nat * list Z * list (string * Z) := (fib_raw, [n], []).

(** The heap on which [fib]'s memo wrapper runs: the call is counted,
    [depth] is one more and the entry line is written. *)
Definition fib_entered (full_str : string) (c d : Z) (h : heap) : heap :=
  trace_enter "####" fib_decorator d "fib" full_str
    (heap_setattr fib_count "calls" (AInt (c + 1)) h).

(** The function [fib]'s memo wrapper wraps: the body, with the module's
    [fib] given [fuel]. *)
Definition fib_inner (fuel : nat) : function :=
  Function fib_raw (fib_body (fib fuel)).

(** What n-ary addition, and n-ary multiplication, give for a call: the
    wrapper made by [n_ary] alone, which needs no heap. *)
Definition foo_result (args : list Z) (kwargs : list (string * Z)) : outcome Z :=
  (n_ary_wrapper (Function foo_raw foo_body) args kwargs empty_heap).1.

Definition bar_nary_fn : function :=
  Function bar_nary (n_ary_wrapper (Function bar_raw bar_body)).

Definition bar_result (args : list Z) (kwargs : list (string * Z)) : outcome Z :=
  (f_call bar_nary_fn args kwargs empty_heap).1.

(** Every cached result of [foo] is what n-ary addition gives. *)
Definition foo_cache_sound (m : gmap (nat * list Z * list (string * Z)) Z) : Prop :=
  ∀ args kwargs v,
    m !! memo_key foo_counted args kwargs = Some v → foo_result args kwargs = Ok v.

(** What [bar]'s wrappers need of the heap; the counting wrapper's own
    [results] attribute is the reference [update_wrapper] copied from the
    memo wrapper when the module was loaded. *)
Record bar_heap (h : heap) (calls : Z)
    (m : gmap (nat * list Z * list (string * Z)) Z) : Prop := BarHeap {
  bh_calls : attr_of bar_count "calls" h = Some (AInt calls);
  bh_count_results : attr_of bar_count "results" h = Some (ADict bar_memo);
  bh_results : attr_of bar_memo "results" h = Some (ADict bar_memo);
  bh_nary_results : attr_of bar_nary "results" h = None;
  bh_nary_name : is_Some (name_of bar_nary h);
  bh_cache : dicts h !! bar_memo = Some m
}.

(** The cache of [bar] holds exactly the calls in [seen] that return,
    with what n-ary multiplication gives for them. *)
Definition bar_cache_exact (m : gmap (nat * list Z * list (string * Z)) Z)
    (seen : list (list Z * list (string * Z))) : Prop :=
  ∀ args kwargs v,
    m !! memo_key bar_nary_fn args kwargs = Some v
    ↔ (args, kwargs) ∈ seen ∧ bar_result args kwargs = Ok v.

(** The docstring of function object [f], if the object exists. *)
Definition doc_of (f : fid) (h : heap) : option (option string) :=
  fn_doc <$> funcs h !! f.

(** The heaps after [def] and after [{}]. *)
Definition heap_new_function (f : fid) (name : string) (doc : option string)
    (h : heap) : heap :=
  (new_function f name doc h).2.

Definition heap_new_dict (d : loc) (h : heap) : heap := (new_dict d h).2.

(** What every decorator of the module leaves behind, having made the
    wrapper object [self] for the function object [f] on heap [h]: the
    wrapper presents the name and docstring of [f], carries its
    attributes, and points back to it; no other object and no output is
    touched. *)
Definition inherits (self f : fid) (h h' : heap) : Prop :=
  name_of self h' = name_of f h
  ∧ doc_of self h' = doc_of f h
  ∧ attr_of self "__wrapped__" h' = Some (AFunc f)
  ∧ (∀ n a, n ≠ "__wrapped__" → attr_of f n h = Some a → attr_of self n h' = Some a)
  ∧ (∀ g, g ≠ self → funcs h' !! g = funcs h !! g)
  ∧ out h' = out h.

(** *** disable and decorator *)

(** [def disable(func): return func] *)
Definition disable (func : function) : M function := mret func.

(** The inner [wrapper(func)] of [decorator(dec)]:
    [update_wrapper(dec(func), func)]. *)
Definition decorator_wrapper (dec : function → M function) (func : function)
  : M function :=
  f ← dec func;
  update_wrapper (f_id f) (f_id func);;
  mret f.

(** [decorator(dec)]: [self] is the object of the inner [wrapper], [dec_id]
    the object of the decorator [dec]. *)
Definition decorator (self dec_id : fid) (dec : function → M function)
  : M (function → M function) :=
  new_function self "wrapper" None;;
  update_wrapper self dec_id;;
  mret (decorator_wrapper dec).

(** The heap after [main()] on the loaded module. *)
Definition main_heap : heap := (main 6 module_heap).2.

(** *** fib with memoization turned off

    [memo = disable] before the definition of [fib], as the docstring of
    [disable] describes and the commented-out line of the module would do:
    [@countcalls @trace("####") @disable def fib]. *)
Fixpoint fib_plain (fuel : nat) : function :=
  Function fib_count
    match fuel with
    | O => λ _ _, raise RecursionDepthExceeded
    | S fuel' =>
        countcalls_wrapper fib_count
          (Function fib_trace
             (trace_wrapper "####" fib_decorator
                (Function fib_raw (fib_body (fib_plain fuel')))))
    end.

Definition load_fib_plain (fib_global : function) : M function :=
  dec ← trace "####" fib_decorator;
  new_function fib_raw "fib" (Some fib_doc);;
  f ← disable (Function fib_raw (fib_body fib_global));
  f ← dec fib_trace f;
  countcalls fib_count f.

(** The heap once the module is loaded with [memo = disable] in place. *)
Definition plain_heap : heap :=
  ((load_foo;; load_bar;; load_fib_plain (fib_plain 0)) empty_heap).2.

Record plain_fib_heap (h : heap) (calls depth : Z) : Prop := PlainFibHeap {
  ph_calls : attr_of fib_count "calls" h = Some (AInt calls);
  ph_depth : attr_of fib_decorator "depth" h = Some (AInt depth);
  ph_name : name_of fib_raw h = Some "fib"
}.

(** * Proofs *)

(** ** The call monad *)

Lemma bind_Ok {A B} (m : M A) (k : A → M B) h a h' :
  m h = (Ok a, h') → (m ≫= k) h = k a h'.
Proof. intros E. unfold mbind, M_bind. by rewrite E. Qed.

Lemma bind_Raise {A B} (m : M A) (k : A → M B) h e h' :
  m h = (Raise e, h') → (m ≫= k) h = (Raise e, h').
Proof. intros E. unfold mbind, M_bind. by rewrite E. Qed.

Lemma bind_inv {A B} (m : M A) (k : A → M B) h o h2 :
  (m ≫= k) h = (o, h2) →
  (∃ a h1, m h = (Ok a, h1) ∧ k a h1 = (o, h2)) ∨
  (∃ e, m h = (Raise e, h2) ∧ o = Raise e).
Proof.
  unfold mbind, M_bind. destruct (m h) as [[a|e] h1] eqn:E; intros Hk.
  - left. eauto.
  - right. exists e. by inversion Hk.
Qed.

(** ** n_ary *)

Lemma n_ary_wrapper_positional func x rest h :
  n_ary_wrapper func (x :: rest) [] h = n_ary_fold func x rest h.
Proof. reflexivity. Qed.


(** C10: calling the wrapper made by [n_ary] with no argument raises the
    TypeError for the missing parameter [x]: binding the arguments fails,
    the heap is unchanged, and the outcome is the same for every wrapped
    function, which is therefore not called. *)
Theorem n_ary_no_arguments (func func' : function) (h : heap) :
  bind_args ["x"] true [] [] = Raise (TypeError_missing_argument "x")
  ∧ n_ary_wrapper func [] [] h = (Raise (TypeError_missing_argument "x"), h)
  ∧ n_ary_wrapper func [] [] h = n_ary_wrapper func' [] [] h.
Proof.
  assert (Hbind : bind_args ["x"] true [] [] = Raise (TypeError_missing_argument "x"))
    by reflexivity.
  assert (Hcall : ∀ g, n_ary_wrapper g [] [] h = (Raise (TypeError_missing_argument "x"), h)).
  { intros g. unfold n_ary_wrapper. rewrite Hbind. by apply bind_Raise. }
  split; [exact Hbind|]. split; [apply Hcall|]. by rewrite !Hcall.
Qed.


(** ** Heap primitives: what they read and write *)

Ltac solve_ne := first [done | by intros [=] | by (cbv; intros [=]) | congruence].

Lemma union_lookup_l (m1 m2 : gmap string attr) k :
  (m1 ∪ m2) !! k = match m1 !! k with Some a => Some a | None => m2 !! k end.
Proof. rewrite lookup_union. destruct (m1 !! k), (m2 !! k); done. Qed.

Lemma attr_of_is_Some f name a h : attr_of f name h = Some a → is_Some (name_of f h).
Proof. unfold attr_of, name_of. destruct (funcs h !! f); [eauto|done]. Qed.

Section setattr.
Context (f : nat) (name : string) (a : attr) (h : heap).

Lemma setattr_eq :
  is_Some (name_of f h) → setattr f name a h = (Ok tt, heap_setattr f name a h).
Proof.
  unfold heap_setattr, setattr, name_of. destruct (funcs h !! f); [done|].
  by intros [? [=]].
Qed.

Lemma attr_of_setattr_eq :
  is_Some (name_of f h) → attr_of f name (heap_setattr f name a h) = Some a.
Proof.
  unfold heap_setattr, setattr, name_of, attr_of.
  destruct (funcs h !! f); [|by intros [? [=]]]. intros _. simpl.
  rewrite lookup_insert_eq. simpl. by rewrite lookup_insert_eq.
Qed.

Lemma attr_of_setattr_ne g n :
  (g, n) ≠ (f, name) → attr_of g n (heap_setattr f name a h) = attr_of g n h.
Proof.
  unfold heap_setattr, setattr, attr_of. intros Hne.
  destruct (funcs h !! f) as [o|] eqn:Ho; [|done]. simpl.
  destruct (decide (g = f)) as [->|Hgf].
  - rewrite lookup_insert_eq, Ho. simpl. rewrite lookup_insert_ne; [done|congruence].
  - by rewrite lookup_insert_ne.
Qed.

Lemma name_of_setattr g : name_of g (heap_setattr f name a h) = name_of g h.
Proof.
  unfold heap_setattr, setattr, name_of.
  destruct (funcs h !! f) as [o|] eqn:Ho; [|done]. simpl.
  destruct (decide (g = f)) as [->|Hgf].
  - by rewrite lookup_insert_eq, Ho.
  - by rewrite lookup_insert_ne.
Qed.

Lemma dicts_setattr : dicts (heap_setattr f name a h) = dicts h.
Proof. unfold heap_setattr, setattr. by destruct (funcs h !! f). Qed.

Lemma out_setattr : out (heap_setattr f name a h) = out h.
Proof. unfold heap_setattr, setattr. by destruct (funcs h !! f). Qed.
End setattr.

Section update_wrapper.
Context (w f : nat) (h : heap).

Lemma update_wrapper_eq :
  is_Some (name_of w h) → is_Some (name_of f h) →
  update_wrapper w f h = (Ok w, heap_update_wrapper w f h).
Proof.
  unfold heap_update_wrapper, update_wrapper, name_of.
  destruct (funcs h !! w); [|by intros [? [=]]].
  destruct (funcs h !! f); [done|by intros _ [? [=]]].
Qed.

Lemma attr_of_update_wrapper_eq n :
  is_Some (name_of w h) → is_Some (name_of f h) →
  attr_of w n (heap_update_wrapper w f h) =
    if decide (n = "__wrapped__") then Some (AFunc f)
    else match attr_of f n h with Some a => Some a | None => attr_of w n h end.
Proof.
  unfold heap_update_wrapper, update_wrapper, name_of, attr_of.
  destruct (funcs h !! w) as [o1|] eqn:Hw; [|by intros [? [=]]].
  destruct (funcs h !! f) as [o2|] eqn:Hf; [|by intros _ [? [=]]].
  intros _ _. simpl. rewrite lookup_insert_eq. simpl. case_decide as Hn.
  - subst n. by rewrite lookup_insert_eq.
  - rewrite lookup_insert_ne by done. apply union_lookup_l.
Qed.

Lemma attr_of_update_wrapper_ne g n :
  g ≠ w → attr_of g n (heap_update_wrapper w f h) = attr_of g n h.
Proof.
  unfold heap_update_wrapper, update_wrapper, attr_of. intros Hg.
  destruct (funcs h !! w); [|done]. destruct (funcs h !! f); [|done].
  simpl. by rewrite lookup_insert_ne.
Qed.

Lemma name_of_update_wrapper_eq :
  is_Some (name_of w h) → is_Some (name_of f h) →
  name_of w (heap_update_wrapper w f h) = name_of f h.
Proof.
  unfold heap_update_wrapper, update_wrapper, name_of.
  destruct (funcs h !! w); [|by intros [? [=]]].
  destruct (funcs h !! f); [|by intros _ [? [=]]].
  intros _ _. simpl. by rewrite lookup_insert_eq.
Qed.

Lemma name_of_update_wrapper_ne g :
  g ≠ w → name_of g (heap_update_wrapper w f h) = name_of g h.
Proof.
  unfold heap_update_wrapper, update_wrapper, name_of. intros Hg.
  destruct (funcs h !! w); [|done]. destruct (funcs h !! f); [|done].
  simpl. by rewrite lookup_insert_ne.
Qed.

Lemma dicts_update_wrapper : dicts (heap_update_wrapper w f h) = dicts h.
Proof.
  unfold heap_update_wrapper, update_wrapper.
  destruct (funcs h !! w); [|done]. by destruct (funcs h !! f).
Qed.

Lemma out_update_wrapper : out (heap_update_wrapper w f h) = out h.
Proof.
  unfold heap_update_wrapper, update_wrapper.
  destruct (funcs h !! w); [|done]. by destruct (funcs h !! f).
Qed.
End update_wrapper.

Section setitem.
Context (d : nat) (k : nat * list Z * list (string * Z)) (v : Z) (h : heap).

Lemma dict_setitem_eq :
  is_Some (dicts h !! d) → dict_setitem d k v h = (Ok tt, heap_setitem d k v h).
Proof.
  unfold heap_setitem, dict_setitem. destruct (dicts h !! d); [done|by intros [? [=]]].
Qed.

Lemma funcs_setitem : funcs (heap_setitem d k v h) = funcs h.
Proof. unfold heap_setitem, dict_setitem. by destruct (dicts h !! d). Qed.

Lemma attr_of_setitem g n : attr_of g n (heap_setitem d k v h) = attr_of g n h.
Proof. unfold attr_of. by rewrite funcs_setitem. Qed.

Lemma name_of_setitem g : name_of g (heap_setitem d k v h) = name_of g h.
Proof. unfold name_of. by rewrite funcs_setitem. Qed.

Lemma dicts_setitem_eq m :
  dicts h !! d = Some m → dicts (heap_setitem d k v h) !! d = Some (<[k := v]> m).
Proof.
  unfold heap_setitem, dict_setitem. intros ->. simpl. by rewrite lookup_insert_eq.
Qed.

Lemma dicts_setitem_ne d' :
  d' ≠ d → dicts (heap_setitem d k v h) !! d' = dicts h !! d'.
Proof.
  unfold heap_setitem, dict_setitem. intros Hd. destruct (dicts h !! d); [|done].
  simpl. by rewrite lookup_insert_ne.
Qed.

Lemma out_setitem : out (heap_setitem d k v h) = out h.
Proof. unfold heap_setitem, dict_setitem. by destruct (dicts h !! d). Qed.
End setitem.

Lemma print_eq parts h :
  print parts h = (Ok tt, heap_print (String.concat " " parts) h).
Proof. reflexivity. Qed.

Lemma attr_of_print g n line h : attr_of g n (heap_print line h) = attr_of g n h.
Proof. reflexivity. Qed.

Lemma name_of_print g line h : name_of g (heap_print line h) = name_of g h.
Proof. reflexivity. Qed.

Lemma dicts_print line h : dicts (heap_print line h) = dicts h.
Proof. reflexivity. Qed.

Lemma out_print line h : out (heap_print line h) = out h ++ [line].
Proof. reflexivity. Qed.

Lemma get_name_eq f s h : name_of f h = Some s → get_name f h = (Ok s, h).
Proof.
  unfold name_of, get_name. destruct (funcs h !! f); simpl; [|done]. by intros [= ->].
Qed.

Lemma cache_of_eq self d m h :
  attr_of self "results" h = Some (ADict d) → dicts h !! d = Some m →
  cache_of self h = Some m.
Proof. unfold cache_of. by intros -> ->. Qed.


(** ** Reading attributes and the cache *)

Lemma getattr_attr_of f name h :
  getattr f name h =
    (match attr_of f name h with Some a => Ok a | None => Raise (AttributeError name) end, h).
Proof.
  unfold getattr, attr_of. destruct (funcs h !! f) as [o|]; simpl; [|done].
  by destruct (fn_dict o !! name).
Qed.

Lemma getattr_Ok f name a h :
  attr_of f name h = Some a → getattr f name h = (Ok a, h).
Proof. intros E. by rewrite getattr_attr_of, E. Qed.

Lemma getattr_inv f name h o h' :
  getattr f name h = (o, h') →
  h' = h ∧ ((∃ a, o = Ok a ∧ attr_of f name h = Some a)
            ∨ (o = Raise (AttributeError name) ∧ attr_of f name h = None)).
Proof.
  rewrite getattr_attr_of. destruct (attr_of f name h) as [a|]; intros [= <- <-]; eauto.
Qed.

Lemma get_results_inv self h (d : nat) h' :
  (getattr self "results" ≫= as_dict) h = (Ok d, h') →
  h' = h ∧ attr_of self "results" h = Some (ADict d).
Proof.
  intros H. apply bind_inv in H as [(a & h1 & Hg & Ha)|(e & _ & [=])].
  apply getattr_inv in Hg as [-> [(a' & [= <-] & Hattr)|[[=] _]]].
  destruct a; simpl in Ha; inversion Ha; by subst.
Qed.

Lemma get_results_Ok self h (d : nat) :
  attr_of self "results" h = Some (ADict d) →
  (getattr self "results" ≫= as_dict) h = (Ok d, h).
Proof. intros E. by rewrite (bind_Ok _ _ _ _ _ (getattr_Ok _ _ _ _ E)). Qed.

Lemma dict_getitem_inv d k h v h' :
  dict_getitem d k h = (Ok v, h') →
  h' = h ∧ ∃ m, dicts h !! d = Some m ∧ m !! k = Some v.
Proof.
  unfold dict_getitem. destruct (dicts h !! d) as [m|]; [|done].
  destruct (m !! k) as [v'|] eqn:E; intros [= <- <-]; eauto.
Qed.

(** ** memo *)

Lemma cache_of_Some self h m :
  cache_of self h = Some m →
  ∃ d, attr_of self "results" h = Some (ADict d) ∧ dicts h !! d = Some m.
Proof.
  unfold cache_of. destruct (attr_of self "results" h) as [[]|]; try done. eauto.
Qed.

(** A cache hit: the stored value is returned, the heap is left as it
    was, and the wrapped function plays no part. *)
Lemma memo_wrapper_hit self func args kwargs v h :
  cached self func args kwargs v h →
  memo_wrapper self func args kwargs h = (Ok v, h).
Proof.
  intros (m & Hc & Hk). apply cache_of_Some in Hc as (d & Hd & Hm).
  unfold memo_wrapper.
  rewrite (bind_Ok _ _ _ _ _ (get_results_Ok _ _ _ Hd)).
  unfold dict_contains at 1. unfold mbind at 1, M_bind at 1. rewrite Hm.
  rewrite bool_decide_eq_true_2 by eauto. simpl negb. cbv iota.
  unfold mbind at 1, M_bind at 1. simpl.
  rewrite (bind_Ok _ _ _ _ _ (get_results_Ok _ _ _ Hd)).
  unfold dict_getitem. by rewrite Hm, Hk.
Qed.

(** A call that returns leaves its result in the cache. *)
Lemma memo_wrapper_caches self func args kwargs h v h' :
  memo_wrapper self func args kwargs h = (Ok v, h') →
  cached self func args kwargs v h'.
Proof.
  unfold memo_wrapper. intros H.
  apply bind_inv in H as [(d & h1 & _ & H)|(e & _ & [=])].
  apply bind_inv in H as [(present & h2 & _ & H)|(e & _ & [=])].
  apply bind_inv in H as [(? & h3 & _ & H)|(e & _ & [=])].
  apply bind_inv in H as [(d' & h4 & Hd & H)|(e & _ & [=])].
  apply get_results_inv in Hd as [-> Hd].
  apply dict_getitem_inv in H as [-> (m & Hm & Hk)].
  exists m. split; [|done]. unfold cache_of. by rewrite Hd.
Qed.


(** ** The wrappers, step by step *)

Lemma getattr_int_eq f name (c : Z) h :
  attr_of f name h = Some (AInt c) → (getattr f name ≫= as_int) h = (Ok c, h).
Proof. intros E. by rewrite (bind_Ok _ _ _ _ _ (getattr_Ok _ _ _ _ E)). Qed.

Lemma countcalls_wrapper_eq self func args kwargs (c : Z) h :
  attr_of self "calls" h = Some (AInt c) →
  countcalls_wrapper self func args kwargs h =
    f_call func args kwargs (heap_setattr self "calls" (AInt (c + 1)) h).
Proof.
  intros Hc. unfold countcalls_wrapper.
  rewrite (bind_Ok _ _ _ _ _ (getattr_int_eq _ _ _ _ Hc)).
  by rewrite (bind_Ok _ _ _ _ _ (setattr_eq _ _ _ _ (attr_of_is_Some _ _ _ _ Hc))).
Qed.

Lemma dict_contains_eq d k m h :
  dicts h !! d = Some m →
  dict_contains d k h = (Ok (bool_decide (is_Some (m !! k))), h).
Proof. unfold dict_contains. by intros ->. Qed.

Lemma dict_getitem_eq d k m v h :
  dicts h !! d = Some m → m !! k = Some v → dict_getitem d k h = (Ok v, h).
Proof. unfold dict_getitem. by intros -> ->. Qed.

Section memo_miss.
Context (self : nat) (func : function) (args : list Z) (kwargs : list (string * Z)).
Context (h : heap) (m : gmap (nat * list Z * list (string * Z)) Z).
Hypothesis Hcache : cache_of self h = Some m.
Hypothesis Hmiss : m !! memo_key func args kwargs = None.

(** On a miss the wrapped function is called, on the heap as it is, with
    the arguments as they came. *)
Lemma memo_wrapper_miss_Raise e h1 :
  f_call func args kwargs h = (Raise e, h1) →
  memo_wrapper self func args kwargs h = (Raise e, h1).
Proof.
  intros Hf. apply cache_of_Some in Hcache as (d & Hd & Hm).
  unfold memo_wrapper.
  rewrite (bind_Ok _ _ _ _ _ (get_results_Ok _ _ _ Hd)).
  rewrite (bind_Ok _ _ _ _ _ (dict_contains_eq _ _ _ _ Hm)).
  rewrite Hmiss, bool_decide_eq_false_2 by (by intros [? [=]]). simpl negb. cbv iota.
  apply bind_Raise. by apply bind_Raise.
Qed.

Lemma memo_wrapper_miss_Ok v h1 d m1 :
  f_call func args kwargs h = (Ok v, h1) →
  attr_of self "results" h1 = Some (ADict d) →
  dicts h1 !! d = Some m1 →
  is_Some (name_of (f_id func) h1) →
  attr_of (f_id func) "results" h1 = None →
  memo_wrapper self func args kwargs h =
    (Ok v, heap_update_wrapper self (f_id func)
             (heap_setitem d (memo_key func args kwargs) v h1)).
Proof.
  intros Hf Hd1 Hm1 Hn1 Hr1. apply cache_of_Some in Hcache as (d0 & Hd & Hm).
  pose proof (attr_of_is_Some _ _ _ _ Hd1) as Hs1.
  unfold memo_wrapper.
  rewrite (bind_Ok _ _ _ _ _ (get_results_Ok _ _ _ Hd)).
  rewrite (bind_Ok _ _ _ _ _ (dict_contains_eq _ _ _ _ Hm)).
  rewrite Hmiss, bool_decide_eq_false_2 by (by intros [? [=]]). simpl negb. cbv iota.
  set (k := memo_key func args kwargs).
  set (h2 := heap_setitem d k v h1).
  set (h3 := heap_update_wrapper self (f_id func) h2).
  assert (Hstore : (v ← f_call func args kwargs;
                    d ← getattr self "results" ≫= as_dict;
                    dict_setitem d k v;; update_wrapper self (f_id func);; mret tt) h
                   = (Ok tt, h3)).
  { rewrite (bind_Ok _ _ _ _ _ Hf).
    rewrite (bind_Ok _ _ _ _ _ (get_results_Ok _ _ _ Hd1)).
    rewrite (bind_Ok _ _ _ _ _ (dict_setitem_eq _ _ _ _ (mk_is_Some _ _ Hm1))).
    fold h2. erewrite bind_Ok; [reflexivity|].
    apply update_wrapper_eq; subst h2; by rewrite name_of_setitem. }
  rewrite (bind_Ok _ _ _ _ _ Hstore).
  assert (Hd3 : attr_of self "results" h3 = Some (ADict d)).
  { subst h3. rewrite attr_of_update_wrapper_eq
      by (subst h2; by rewrite name_of_setitem).
    rewrite decide_False by done. subst h2. by rewrite !attr_of_setitem, Hr1. }
  rewrite (bind_Ok _ _ _ _ _ (get_results_Ok _ _ _ Hd3)).
  apply (dict_getitem_eq _ _ (<[k := v]> m1)); [|by rewrite lookup_insert_eq].
  subst h3. rewrite dicts_update_wrapper. subst h2. by apply dicts_setitem_eq.
Qed.
End memo_miss.

Section trace_steps.
Context (tab : string) (decorator : nat) (func : function).
Context (args : list Z) (kwargs : list (string * Z)) (full_str name : string).
Context (d : Z) (h : heap).
Hypothesis Hargs : args_string args kwargs = Ok full_str.
Hypothesis Hdepth : attr_of decorator "depth" h = Some (AInt d).
Hypothesis Hname : name_of (f_id func) h = Some name.

Lemma trace_wrapper_Raise e h2 :
  f_call func args kwargs (trace_enter tab decorator d name full_str h) = (Raise e, h2) →
  trace_wrapper tab decorator func args kwargs h = (Raise e, h2).
Proof.
  intros Hf. pose proof (attr_of_is_Some _ _ _ _ Hdepth) as Hs.
  unfold trace_wrapper. rewrite Hargs.
  rewrite (bind_Ok _ _ h full_str h) by reflexivity.
  rewrite (bind_Ok _ _ _ _ _ (getattr_int_eq _ _ _ _ Hdepth)).
  rewrite (bind_Ok _ _ _ _ _ (setattr_eq _ _ _ _ Hs)).
  rewrite (bind_Ok _ _ _ _ _ (getattr_int_eq _ _ (d + 1) _ (attr_of_setattr_eq _ _ _ _ Hs))).
  erewrite bind_Ok; [|apply get_name_eq; by rewrite name_of_setattr].
  rewrite (bind_Ok _ _ _ _ _ (print_eq _ _)).
  by apply bind_Raise.
Qed.

Lemma trace_wrapper_Ok result h2 d2 name2 :
  f_call func args kwargs (trace_enter tab decorator d name full_str h) = (Ok result, h2) →
  attr_of decorator "depth" h2 = Some (AInt d2) →
  name_of (f_id func) h2 = Some name2 →
  trace_wrapper tab decorator func args kwargs h =
    (Ok result, trace_leave tab decorator d2 name2 full_str result h2).
Proof.
  intros Hf Hd2 Hn2. pose proof (attr_of_is_Some _ _ _ _ Hdepth) as Hs.
  pose proof (attr_of_is_Some _ _ _ _ Hd2) as Hs2.
  unfold trace_wrapper. rewrite Hargs.
  rewrite (bind_Ok _ _ h full_str h) by reflexivity.
  rewrite (bind_Ok _ _ _ _ _ (getattr_int_eq _ _ _ _ Hdepth)).
  rewrite (bind_Ok _ _ _ _ _ (setattr_eq _ _ _ _ Hs)).
  rewrite (bind_Ok _ _ _ _ _ (getattr_int_eq _ _ (d + 1) _ (attr_of_setattr_eq _ _ _ _ Hs))).
  erewrite bind_Ok; [|apply get_name_eq; by rewrite name_of_setattr].
  rewrite (bind_Ok _ _ _ _ _ (print_eq _ _)).
  rewrite (bind_Ok _ _ _ _ _ Hf).
  rewrite (bind_Ok _ _ _ _ _ (getattr_int_eq _ _ _ _ Hd2)).
  rewrite (bind_Ok _ _ _ _ _ (get_name_eq _ _ _ Hn2)).
  rewrite (bind_Ok _ _ _ _ _ (print_eq _ _)).
  erewrite bind_Ok; [|apply getattr_int_eq; by rewrite attr_of_print].
  erewrite bind_Ok; [reflexivity|].
  apply setattr_eq. by rewrite name_of_print.
Qed.
End trace_steps.


(** ** fib *)

Ltac heap_obs :=
  repeat progress rewrite ?attr_of_setattr_ne, ?name_of_setattr, ?dicts_setattr, ?out_setattr,
    ?attr_of_print, ?name_of_print, ?dicts_print, ?out_print,
    ?attr_of_setitem, ?name_of_setitem, ?out_setitem,
    ?attr_of_update_wrapper_ne, ?name_of_update_wrapper_ne,
    ?dicts_update_wrapper, ?out_update_wrapper by solve_ne.

Lemma fib_value_base n : n ≤ 1 → fib_value n = 1.
Proof.
  intros Hn. unfold fib_value.
  destruct (Z.to_nat n) as [|[|k]] eqn:E; [done|done|lia].
Qed.

Lemma fib_value_step n : ¬ n ≤ 1 → fib_value n = fib_value (n - 1) + fib_value (n - 2).
Proof.
  intros Hn. unfold fib_value.
  replace (Z.to_nat n) with (S (S (Z.to_nat (n - 2)))) by lia.
  replace (Z.to_nat (n - 1)) with (S (Z.to_nat (n - 2))) by lia.
  reflexivity.
Qed.

Lemma append_empty_r s : s +:+ "" = s.
Proof.
  induction s as [|a s IH]; [done|].
  change (String a (s +:+ "") = String a s). by f_equal.
Qed.

Lemma args_string_one n : args_string [n] [] = Ok (str n).
Proof.
  unfold args_string. simpl. by rewrite andb_false_r, append_empty_r.
Qed.

Lemma well_nested_app tab name depth l1 l2 :
  well_nested tab name depth l1 → well_nested tab name depth l2 →
  well_nested tab name depth (l1 ++ l2).
Proof.
  induction 1 as [|depth full r inner rest Hi _ Hr IH]; intros H2; [done|].
  simpl. rewrite <- app_assoc. simpl. constructor; auto.
Qed.

Lemma well_nested_block tab name depth full_str result inner :
  well_nested tab name (depth + 1) inner →
  well_nested tab name depth (call_block tab name depth full_str result inner).
Proof. intros Hi. unfold call_block. constructor; [done|constructor]. Qed.

Section fib_heap.
Context (h : heap) (c d : Z) (m : gmap (nat * list Z * list (string * Z)) Z).
Hypothesis Hh : fib_heap h c d m.

Lemma fib_heap_count c' :
  fib_heap (heap_setattr fib_count "calls" (AInt c') h) c' d m.
Proof.
  destruct Hh. split; heap_obs; try done.
  apply attr_of_setattr_eq. eauto using attr_of_is_Some.
Qed.

Lemma fib_heap_enter name full_str :
  fib_heap (trace_enter "####" fib_decorator d name full_str h) c (d + 1) m.
Proof.
  destruct Hh. unfold trace_enter. split; heap_obs; try done.
  apply attr_of_setattr_eq. eauto using attr_of_is_Some.
Qed.

Lemma fib_heap_leave name full_str result :
  fib_heap (trace_leave "####" fib_decorator d name full_str result h) c (d - 1) m.
Proof.
  destruct Hh. unfold trace_leave. split; heap_obs; try done.
  apply attr_of_setattr_eq. heap_obs. eauto using attr_of_is_Some.
Qed.

Lemma fib_heap_store k v :
  fib_heap (heap_update_wrapper fib_memo fib_raw (heap_setitem fib_memo k v h))
    c d (<[k := v]> m).
Proof.
  destruct Hh. split; heap_obs; try done.
  - rewrite attr_of_update_wrapper_eq by (heap_obs; eauto).
    rewrite decide_False by done. heap_obs. by rewrite fh_raw_results0.
  - rewrite name_of_update_wrapper_eq by (heap_obs; eauto). by heap_obs.
  - by apply dicts_setitem_eq.
Qed.
End fib_heap.

Lemma fib_body_base g n h :
  n ≤ 1 → fib_body g [n] [] h = (Ok 1, h).
Proof.
  intros Hn. unfold fib_body.
  rewrite (bind_Ok _ _ h ([n], []) h) by reflexivity.
  by rewrite bool_decide_eq_true_2.
Qed.

Lemma fib_body_step g n h :
  ¬ n ≤ 1 →
  fib_body g [n] [] h =
    (a ← f_call g [n - 1] []; b ← f_call g [n - 2] []; mret (a + b)) h.
Proof.
  intros Hn. unfold fib_body.
  rewrite (bind_Ok _ _ h ([n], []) h) by reflexivity.
  by rewrite bool_decide_eq_false_2.
Qed.

Lemma cache_sound_insert m n :
  cache_sound m → cache_sound (<[(fib_raw, [n], []) := fib_value n]> m).
Proof.
  intros Hm n' v. destruct (decide (n' = n)) as [->|Hne].
  - rewrite lookup_insert_eq. congruence.
  - rewrite lookup_insert_ne by congruence. apply Hm.
Qed.

Lemma cache_sound_insert_subseteq m n :
  cache_sound m → m ⊆ <[(fib_raw, [n], []) := fib_value n]> m.
Proof.
  intros Hm. destruct (m !! (fib_raw, [n], [])) as [v|] eqn:E.
  - rewrite (Hm _ _ E) in E. by rewrite insert_id.
  - by apply insert_subseteq.
Qed.

(** A call of [fib] on a heap in good state, with enough fuel: it returns
    the Fibonacci number, counts [k >= 1] calls, restores [depth], keeps
    and extends the cache, and writes one properly nested block of
    [2 * k] lines. *)
Lemma fib_call fuel : ∀ n h c d m,
  fib_heap h c d m → cache_sound m → (Z.to_nat n < fuel)%nat →
  ∃ h' k m' inner,
    f_call (fib fuel) [n] [] h = (Ok (fib_value n), h')
    ∧ fib_heap h' (c + k) d m' ∧ cache_sound m' ∧ m ⊆ m'
    ∧ m' !! (fib_raw, [n], []) = Some (fib_value n)
    ∧ 1 ≤ k
    ∧ out h' = out h ++ call_block "####" "fib" (d + 1) (str n) (fib_value n) inner
    ∧ well_nested "####" "fib" (d + 2) inner
    ∧ Z.of_nat (length inner) = 2 * (k - 1).
Proof.
  induction fuel as [|fuel IH]; intros n h c d m Hh Hm Hfuel; [lia|].
  simpl fib. cbn [f_call].
  rewrite (countcalls_wrapper_eq _ _ _ _ c) by apply Hh.
  pose proof (fib_heap_count _ _ _ _ Hh (c + 1)) as Hh1.
  set (h1 := heap_setattr fib_count "calls" (AInt (c + 1)) h) in *.
  pose proof (fib_heap_enter _ _ _ _ Hh1 "fib" (str n)) as Hh2.
  assert (Hout2 : out (trace_enter "####" fib_decorator d "fib" (str n) h1)
                  = out h ++ [entry_line "####" (d + 1) "fib" (str n)]).
  { unfold trace_enter, h1. by heap_obs. }
  set (h2 := trace_enter "####" fib_decorator d "fib" (str n) h1) in *.
  set (F := Function fib_raw (fib_body (fib fuel))).
  set (key := (fib_raw, [n], []) : nat * list Z * list (string * Z)).
  (* what the memo wrapper does on [h2] *)
  assert (∃ h3 k m' inner,
    memo_wrapper fib_memo F [n] [] h2 = (Ok (fib_value n), h3)
    ∧ fib_heap h3 (c + 1 + k) (d + 1) m' ∧ cache_sound m' ∧ m ⊆ m'
    ∧ m' !! key = Some (fib_value n) ∧ 0 ≤ k
    ∧ out h3 = out h2 ++ inner
    ∧ well_nested "####" "fib" (d + 2) inner
    ∧ Z.of_nat (length inner) = 2 * k) as (h3 & k & m' & inner & Hcall & Hh3 & Hm' & Hsub & Hkey & Hk & Hout3 & Hwn & Hlen).
  { destruct (m !! key) as [v|] eqn:Hlook.
    - (* hit *)
      pose proof (Hm _ _ Hlook) as ->.
      exists h2, 0, m, []. split_and!; try done.
      + apply memo_wrapper_hit. exists m. split; [|done].
        eapply cache_of_eq; apply Hh2.
      + by rewrite Z.add_0_r.
      + by rewrite app_nil_r.
      + constructor.
    - (* miss *)
      assert (Hc2 : cache_of fib_memo h2 = Some m) by (eapply cache_of_eq; apply Hh2).
      destruct (decide (n ≤ 1)) as [Hn|Hn].
      + exists (heap_update_wrapper fib_memo fib_raw (heap_setitem fib_memo key 1 h2)),
          0, (<[key := fib_value n]> m), [].
        rewrite (fib_value_base n Hn) in *. split_and!; try done.
        * eapply (memo_wrapper_miss_Ok _ F _ _ _ _ Hc2 Hlook); try apply Hh2.
          -- by apply fib_body_base.
          -- destruct Hh2. simpl. eauto.
        * rewrite Z.add_0_r. by apply fib_heap_store.
        * rewrite <- (fib_value_base n Hn). by apply cache_sound_insert.
        * by apply insert_subseteq.
        * by rewrite lookup_insert_eq.
        * heap_obs. by rewrite app_nil_r.
        * constructor.
      + destruct (IH (n - 1) h2 _ _ _ Hh2 Hm ltac:(lia))
          as (ha & k1 & ma & in1 & Ha & Hha & Hma & Hsuba & _ & Hk1 & Houta & Hwna & Hlena).
        destruct (IH (n - 2) ha _ _ _ Hha Hma ltac:(lia))
          as (hb & k2 & mb & in2 & Hb & Hhb & Hmb & Hsubb & _ & Hk2 & Houtb & Hwnb & Hlenb).
        exists (heap_update_wrapper fib_memo fib_raw
                  (heap_setitem fib_memo key (fib_value n) hb)),
          (k1 + k2), (<[key := fib_value n]> mb),
          (call_block "####" "fib" (d + 1 + 1) (str (n - 1)) (fib_value (n - 1)) in1
             ++ call_block "####" "fib" (d + 1 + 1) (str (n - 2)) (fib_value (n - 2)) in2).
        split_and!.
        * eapply (memo_wrapper_miss_Ok _ F _ _ _ _ Hc2 Hlook); try apply Hhb.
          -- simpl f_call. rewrite fib_body_step by done.
             rewrite (bind_Ok _ _ _ _ _ Ha). rewrite (bind_Ok _ _ _ _ _ Hb).
             by rewrite (fib_value_step n Hn).
          -- destruct Hhb. simpl. eauto.
        * replace (c + 1 + (k1 + k2)) with (c + 1 + k1 + k2) by lia.
          by apply fib_heap_store.
        * by apply cache_sound_insert.
        * etrans; [exact Hsuba|]. etrans; [exact Hsubb|].
          by apply cache_sound_insert_subseteq.
        * by rewrite lookup_insert_eq.
        * lia.
        * heap_obs. rewrite Houtb, Houta. by rewrite <- app_assoc.
        * replace (d + 2) with (d + 1 + 1) by lia.
          apply well_nested_app; apply well_nested_block;
            by replace (d + 1 + 1 + 1) with (d + 1 + 2) by lia.
        * rewrite length_app. unfold call_block. simpl. rewrite !length_app. simpl. lia. }
  exists (trace_leave "####" fib_decorator (d + 1) "fib" (str n) (fib_value n) h3),
    (1 + k), m', inner.
  split_and!; try done.
  - eapply (trace_wrapper_Ok "####" fib_decorator (Function fib_memo (memo_wrapper fib_memo F))
              [n] [] (str n) "fib" d h1 (args_string_one n)); try apply Hh1; try apply Hh3.
    exact Hcall.
  - replace (c + (1 + k)) with (c + 1 + k) by lia.
    replace d with (d + 1 - 1) at 2 by lia. by apply fib_heap_leave.
  - lia.
  - unfold trace_leave. heap_obs. rewrite Hout3, Hout2. unfold call_block.
    rewrite <- !app_assoc. reflexivity.
  - lia.
Qed.


(** ** More fuel changes nothing *)

Lemma extends_refl {A} (m : M A) : extends m m.
Proof. by intros h o h' H _. Qed.

Lemma extends_bind {A B} (m m' : M A) (k k' : A → M B) :
  extends m m' → (∀ a, extends (k a) (k' a)) → extends (m ≫= k) (m' ≫= k').
Proof.
  intros Hm Hk h o h' H Hfin.
  apply bind_inv in H as [(a & h1 & H1 & H2)|(e & H1 & ->)].
  - rewrite (bind_Ok _ _ _ _ _ (Hm _ _ _ H1 ltac:(done))). by apply Hk.
  - apply bind_Raise. apply Hm; [done|]. intros [= ->]. by apply Hfin.
Qed.

Ltac extends_tac Hf :=
  repeat first
    [ apply extends_refl
    | apply Hf
    | apply extends_bind; [|intros ?]
    | match goal with |- extends (if ?b then _ else _) _ => destruct b end ].

Lemma countcalls_wrapper_extends self f f' args kwargs :
  (∀ a k, extends (f_call f a k) (f_call f' a k)) →
  extends (countcalls_wrapper self f args kwargs) (countcalls_wrapper self f' args kwargs).
Proof. intros Hf. unfold countcalls_wrapper. extends_tac Hf. Qed.

Lemma trace_wrapper_extends tab dec f f' args kwargs :
  f_id f = f_id f' →
  (∀ a k, extends (f_call f a k) (f_call f' a k)) →
  extends (trace_wrapper tab dec f args kwargs) (trace_wrapper tab dec f' args kwargs).
Proof. intros Hid Hf. unfold trace_wrapper. rewrite Hid. extends_tac Hf. Qed.

Lemma memo_wrapper_extends self f f' args kwargs :
  f_id f = f_id f' →
  (∀ a k, extends (f_call f a k) (f_call f' a k)) →
  extends (memo_wrapper self f args kwargs) (memo_wrapper self f' args kwargs).
Proof. intros Hid Hf. unfold memo_wrapper, memo_key. rewrite Hid. extends_tac Hf. Qed.

Lemma fib_body_extends g g' args kwargs :
  (∀ a k, extends (f_call g a k) (f_call g' a k)) →
  extends (fib_body g args kwargs) (fib_body g' args kwargs).
Proof.
  intros Hg. unfold fib_body. apply extends_bind; [apply extends_refl|].
  intros [vs rest]. destruct vs as [|n [|? ?]]; try apply extends_refl.
  destruct (bool_decide (n ≤ 1)); [apply extends_refl|].
  apply extends_bind; [apply Hg|intros ?].
  apply extends_bind; [apply Hg|intros ?]. apply extends_refl.
Qed.

Lemma fib_fuel_S fuel args kwargs :
  extends (f_call (fib fuel) args kwargs) (f_call (fib (S fuel)) args kwargs).
Proof.
  revert args kwargs. induction fuel as [|fuel IH]; intros args kwargs.
  - intros h o h' [= <- <-] Hfin. by destruct Hfin.
  - change (f_call (fib (S fuel))) with
      (countcalls_wrapper fib_count
         (Function fib_trace (trace_wrapper "####" fib_decorator
            (Function fib_memo (memo_wrapper fib_memo
               (Function fib_raw (fib_body (fib fuel)))))))).
    change (f_call (fib (S (S fuel)))) with
      (countcalls_wrapper fib_count
         (Function fib_trace (trace_wrapper "####" fib_decorator
            (Function fib_memo (memo_wrapper fib_memo
               (Function fib_raw (fib_body (fib (S fuel))))))))).
    apply countcalls_wrapper_extends. intros a k.
    apply trace_wrapper_extends; [done|]. intros a1 k1.
    apply memo_wrapper_extends; [done|]. intros a2 k2.
    by apply fib_body_extends.
Qed.

(** A call of [fib] that finishes with some fuel does the same with any
    more fuel. *)
Lemma fib_fuel_mono fuel extra args kwargs :
  extends (f_call (fib fuel) args kwargs) (f_call (fib (extra + fuel)) args kwargs).
Proof.
  induction extra as [|extra IH]; [apply extends_refl|].
  intros h o h' H Hfin. apply (fib_fuel_S (extra + fuel)); [|done]. by apply IH.
Qed.


(** ** Frames *)

Lemma keeps_bind {A B X} (obs : heap → X) (m : M A) (k : A → M B) :
  keeps obs m → (∀ a, keeps obs (k a)) → keeps obs (m ≫= k).
Proof.
  intros Hm Hk h o h' H.
  apply bind_inv in H as [(a & h1 & H1 & H2)|(e & H1 & ->)].
  - rewrite (Hk _ _ _ _ H2). by eapply Hm.
  - by eapply Hm.
Qed.

Lemma keeps_const {A X} (obs : heap → X) (o : outcome A) : keeps obs (lift o).
Proof. by intros h o' h' [= _ <-]. Qed.

Lemma keeps_ret {A X} (obs : heap → X) (a : A) : keeps obs (mret a).
Proof. by intros h o' h' [= _ <-]. Qed.

Lemma keeps_raise {A X} (obs : heap → X) e : keeps obs (@raise A e).
Proof. by intros h o' h' [= _ <-]. Qed.

Lemma keeps_getattr {X} (obs : heap → X) f name : keeps obs (getattr f name).
Proof. intros h o h' H. by apply getattr_inv in H as [-> _]. Qed.

Lemma keeps_as_int {X} (obs : heap → X) a : keeps obs (as_int a).
Proof. destruct a; by intros h o h' [= _ <-]. Qed.

Lemma keeps_as_dict {X} (obs : heap → X) a : keeps obs (as_dict a).
Proof. destruct a; by intros h o h' [= _ <-]. Qed.

Lemma keeps_get_name {X} (obs : heap → X) f : keeps obs (get_name f).
Proof. unfold get_name. intros h o h'. by destruct (funcs h !! f); intros [= _ <-]. Qed.

Lemma keeps_dict_contains {X} (obs : heap → X) d k : keeps obs (dict_contains d k).
Proof. unfold dict_contains. intros h o h'. by destruct (dicts h !! d); intros [= _ <-]. Qed.

Lemma keeps_dict_getitem {X} (obs : heap → X) d k : keeps obs (dict_getitem d k).
Proof.
  unfold dict_getitem. intros h o h'.
  destruct (dicts h !! d) as [m|]; [destruct (m !! k)|]; by intros [= _ <-].
Qed.

Lemma keeps_pure {X} (obs : heap → X) g args kwargs :
  pure_callable g → keeps obs (g args kwargs).
Proof. intros Hg h o h'. rewrite Hg. by intros [= _ <-]. Qed.

Lemma keeps_setattr f name a g n :
  (g, n) ≠ (f, name) → keeps (attr_of g n) (setattr f name a).
Proof.
  intros Hne h o h' H. replace h' with (heap_setattr f name a h).
  - by apply attr_of_setattr_ne.
  - unfold heap_setattr. by rewrite H.
Qed.

Lemma keeps_setattr_dicts f name a : keeps dicts (setattr f name a).
Proof.
  intros h o h' H. replace h' with (heap_setattr f name a h).
  - apply dicts_setattr.
  - unfold heap_setattr. by rewrite H.
Qed.

Lemma keeps_setattr_name f name a g : keeps (name_of g) (setattr f name a).
Proof.
  intros h o h' H. replace h' with (heap_setattr f name a h).
  - apply name_of_setattr.
  - unfold heap_setattr. by rewrite H.
Qed.

Lemma keeps_dict_setitem d k v g n : keeps (attr_of g n) (dict_setitem d k v).
Proof.
  intros h o h' H. replace h' with (heap_setitem d k v h).
  - apply attr_of_setitem.
  - unfold heap_setitem. by rewrite H.
Qed.

Lemma keeps_update_wrapper w f g n : g ≠ w → keeps (attr_of g n) (update_wrapper w f).
Proof.
  intros Hne h o h' H. replace h' with (heap_update_wrapper w f h).
  - by apply attr_of_update_wrapper_ne.
  - unfold heap_update_wrapper. by rewrite H.
Qed.

Ltac keeps_tac :=
  repeat first
    [ apply keeps_ret | apply keeps_raise | apply keeps_const
    | apply keeps_getattr | apply keeps_as_int | apply keeps_as_dict
    | apply keeps_get_name | apply keeps_dict_contains | apply keeps_dict_getitem
    | apply keeps_setattr_dicts | apply keeps_setattr_name
    | apply keeps_dict_setitem
    | apply keeps_setattr; solve_ne
    | apply keeps_update_wrapper; solve_ne
    | apply keeps_bind; [|intros ?]
    | match goal with |- keeps _ (if ?b then _ else _) => destruct b end
    | done ].

(** The memo wrapper writes only the dictionaries and its own object,
    apart from what the wrapped function writes. *)
Lemma memo_wrapper_keeps_attr self func args kwargs g n :
  g ≠ self →
  (∀ a k, keeps (attr_of g n) (f_call func a k)) →
  keeps (attr_of g n) (memo_wrapper self func args kwargs).
Proof. intros Hg Hf. unfold memo_wrapper. keeps_tac. Qed.

(** ** Pure functions *)

Lemma foo_body_pure : pure_callable foo_body.
Proof.
  intros args kwargs h. unfold foo_body, mbind, M_bind, lift.
  destruct (bind_args _ _ _ _) as [[vs rest]|e]; [|done].
  by destruct vs as [|a [|b [|? ?]]].
Qed.

Lemma bar_body_pure : pure_callable bar_body.
Proof.
  intros args kwargs h. unfold bar_body, mbind, M_bind, lift.
  destruct (bind_args _ _ _ _) as [[vs rest]|e]; [|done].
  by destruct vs as [|a [|b [|? ?]]].
Qed.

Lemma n_ary_fold_pure func x rest h :
  pure_callable (f_call func) →
  n_ary_fold func x rest h = ((n_ary_fold func x rest empty_heap).1, h).
Proof.
  intros Hf. revert x h. induction rest as [|y rest IH]; intros x h; [done|].
  cbn [n_ary_fold]. unfold mbind, M_bind.
  rewrite (IH y h), (IH y empty_heap).
  destruct (n_ary_fold func y rest empty_heap).1 as [r|e]; simpl; [|done].
  rewrite (Hf _ _ h). by rewrite (Hf _ _ empty_heap).
Qed.

Lemma n_ary_wrapper_pure func :
  pure_callable (f_call func) → pure_callable (n_ary_wrapper func).
Proof.
  intros Hf args kwargs h. unfold n_ary_wrapper, mbind, M_bind, lift.
  destruct (bind_args _ _ _ _) as [[vs rest]|e]; [|done].
  destruct vs as [|x [|? ?]]; try done.
  rewrite (n_ary_fold_pure _ _ _ h Hf). by rewrite (n_ary_fold_pure _ _ _ empty_heap Hf).
Qed.

(** ** bar *)

(** One call of [bar] adds one to [bar.calls], whatever the arguments and
    whatever the outcome. *)
Lemma bar_call_counts args kwargs (c : Z) h :
  attr_of bar_count "calls" h = Some (AInt c) →
  attr_of bar_count "calls" (f_call bar args kwargs h).2 = Some (AInt (c + 1)).
Proof.
  intros Hc. unfold bar. cbn [f_call]. rewrite (countcalls_wrapper_eq _ _ _ _ c) by done.
  set (h1 := heap_setattr bar_count "calls" (AInt (c + 1)) h).
  assert (Hk : keeps (attr_of bar_count "calls")
                 (memo_wrapper bar_memo
                    (Function bar_nary (n_ary_wrapper (Function bar_raw bar_body)))
                    args kwargs)).
  { apply memo_wrapper_keeps_attr; [solve_ne|]. intros a k. apply keeps_pure.
    apply n_ary_wrapper_pure, bar_body_pure. }
  cbn [f_call]. destruct (memo_wrapper _ _ _ _ h1) as [o h'] eqn:E.
  cbn [snd]. rewrite (Hk _ _ _ E). apply attr_of_setattr_eq. eauto using attr_of_is_Some.
Qed.

Lemma invoke_all_cons f args kwargs calls h :
  invoke_all f ((args, kwargs) :: calls) h = invoke_all f calls (f_call f args kwargs h).2.
Proof. reflexivity. Qed.

Lemma bar_calls_count calls : ∀ (c : Z) h,
  attr_of bar_count "calls" h = Some (AInt c) →
  attr_of bar_count "calls" (invoke_all bar calls h)
    = Some (AInt (c + Z.of_nat (length calls))).
Proof.
  induction calls as [|[args kwargs] calls IH]; intros c h Hc.
  - simpl. by rewrite Z.add_0_r.
  - rewrite invoke_all_cons.
    rewrite (IH (c + 1)) by by apply bar_call_counts.
    do 2 f_equal. cbn [length]. lia.
Qed.


(** ** foo *)

Lemma foo_counted_call args kwargs (c : Z) h :
  attr_of foo_count "calls" h = Some (AInt c) →
  f_call foo_counted args kwargs h =
    ((n_ary_wrapper (Function foo_raw foo_body) args kwargs empty_heap).1,
     heap_setattr foo_count "calls" (AInt (c + 1)) h).
Proof.
  intros Hc. unfold foo_counted. cbn [f_call].
  rewrite (countcalls_wrapper_eq _ _ _ _ c) by done. cbn [f_call].
  apply (n_ary_wrapper_pure (Function foo_raw foo_body) foo_body_pure).
Qed.

Section foo_heap.
Context (h : heap) (c : Z) (m : gmap (nat * list Z * list (string * Z)) Z).
Hypothesis Hh : foo_heap h c m.

Lemma foo_heap_count :
  foo_heap (heap_setattr foo_count "calls" (AInt (c + 1)) h) (c + 1) m.
Proof.
  destruct Hh. split; heap_obs; try done.
  apply attr_of_setattr_eq. eauto using attr_of_is_Some.
Qed.

Lemma foo_heap_store k v :
  foo_heap (heap_update_wrapper foo_memo foo_count (heap_setitem foo_memo k v h))
    c (<[k := v]> m).
Proof.
  destruct Hh. split; heap_obs; try done.
  - rewrite attr_of_update_wrapper_eq by (heap_obs; eauto using attr_of_is_Some).
    rewrite decide_False by done. heap_obs. by rewrite oh_count_results0.
  - by apply dicts_setitem_eq.
Qed.

(** After the store, [foo.calls] is the counting wrapper's [calls]:
    [update_wrapper] copies it. *)
Lemma foo_calls_store k v :
  attr_of foo_memo "calls"
    (heap_update_wrapper foo_memo foo_count (heap_setitem foo_memo k v h))
  = Some (AInt c).
Proof.
  destruct Hh.
  rewrite attr_of_update_wrapper_eq by (heap_obs; eauto using attr_of_is_Some).
  rewrite decide_False by done. heap_obs. by rewrite oh_calls0.
Qed.

Lemma foo_cache_of : cache_of foo_memo h = Some m.
Proof. eapply cache_of_eq; apply Hh. Qed.

End foo_heap.

Section foo_call.
Context (h : heap) (c : Z) (m : gmap (nat * list Z * list (string * Z)) Z).
Hypothesis Hh : foo_heap h c m.

Lemma foo_call_hit args kwargs v :
  m !! memo_key foo_counted args kwargs = Some v →
  f_call foo args kwargs h = (Ok v, h).
Proof.
  intros Hk. apply memo_wrapper_hit. exists m. split; [by eapply foo_cache_of|done].
Qed.

Lemma foo_call_miss_Raise args kwargs e :
  m !! memo_key foo_counted args kwargs = None →
  (n_ary_wrapper (Function foo_raw foo_body) args kwargs empty_heap).1 = Raise e →
  f_call foo args kwargs h =
    (Raise e, heap_setattr foo_count "calls" (AInt (c + 1)) h).
Proof.
  intros Hk He.
  apply (memo_wrapper_miss_Raise _ foo_counted _ _ _ _ (foo_cache_of _ _ _ Hh) Hk).
  rewrite (foo_counted_call _ _ c) by apply Hh. by rewrite He.
Qed.

Lemma foo_call_miss_Ok args kwargs v :
  m !! memo_key foo_counted args kwargs = None →
  (n_ary_wrapper (Function foo_raw foo_body) args kwargs empty_heap).1 = Ok v →
  f_call foo args kwargs h =
    (Ok v, heap_update_wrapper foo_memo foo_count
             (heap_setitem foo_memo (memo_key foo_counted args kwargs) v
                (heap_setattr foo_count "calls" (AInt (c + 1)) h))).
Proof.
  intros Hk Hv. pose proof (foo_heap_count _ _ _ Hh) as Hh1.
  apply (memo_wrapper_miss_Ok _ foo_counted _ _ _ _ (foo_cache_of _ _ _ Hh) Hk _ _ foo_memo m);
    try apply Hh1.
  - rewrite (foo_counted_call _ _ c) by apply Hh. by rewrite Hv.
  - destruct Hh1. eauto using attr_of_is_Some.
Qed.

(** A call of [foo] whose key is not cached runs the counting wrapper
    once; a call whose key is cached leaves the heap as it is. *)
Lemma foo_call_heap args kwargs :
  ∃ c' m',
    foo_heap (f_call foo args kwargs h).2 c' m'
    ∧ (m !! memo_key foo_counted args kwargs = None →
       c' = c + 1 ∧
       (m' = m ∨ ∃ v, m' = <[memo_key foo_counted args kwargs := v]> m))
    ∧ (is_Some (m !! memo_key foo_counted args kwargs) →
       (f_call foo args kwargs h).2 = h ∧ c' = c ∧ m' = m).
Proof.
  destruct (m !! memo_key foo_counted args kwargs) as [v|] eqn:Hk.
  - exists c, m. rewrite (foo_call_hit _ _ _ Hk). split_and!; [done|done|eauto].
  - destruct (n_ary_wrapper (Function foo_raw foo_body) args kwargs empty_heap).1
      as [v|e] eqn:Ho.
    + exists (c + 1), (<[memo_key foo_counted args kwargs := v]> m).
      rewrite (foo_call_miss_Ok _ _ _ Hk Ho). split_and!.
      * apply foo_heap_store, foo_heap_count, Hh.
      * eauto.
      * by intros [? [=]].
    + exists (c + 1), m. rewrite (foo_call_miss_Raise _ _ _ Hk Ho). split_and!.
      * apply foo_heap_count, Hh.
      * eauto.
      * by intros [? [=]].
Qed.
End foo_call.


(** ** The cache over the wrapper's lifetime *)

Section memo_lifetime.
Context (self : nat) (func : function).
Hypothesis Hresp : cache_respecting self func.

Lemma memo_call_keeps_cached args0 kwargs0 v args kwargs h :
  memo_ready func h → cached self func args0 kwargs0 v h →
  memo_ready func (memo_wrapper self func args kwargs h).2
  ∧ cached self func args0 kwargs0 v (memo_wrapper self func args kwargs h).2.
Proof.
  intros Hready (m & Hc & Hk0).
  destruct (m !! memo_key func args kwargs) as [v'|] eqn:Hk.
  { rewrite (memo_wrapper_hit _ _ _ _ v') by (by exists m). split; [done|by exists m]. }
  destruct (f_call func args kwargs h) as [[r|e] h1] eqn:Hf.
  - destruct (Hresp _ _ _ _ _ _ Hready Hc Hf) as ([Hn1 Hr1] & m1 & Hc1 & Hsub).
    pose proof Hc1 as Hc1'. apply cache_of_Some in Hc1' as (d & Hd1 & Hm1).
    rewrite (memo_wrapper_miss_Ok _ _ _ _ _ _ Hc Hk _ _ _ _ Hf Hd1 Hm1 Hn1 Hr1).
    cbn [snd].
    assert (Hne : f_id func ≠ self) by (intros Heq; rewrite Heq in Hr1; congruence).
    assert (Hs : is_Some (name_of self (heap_setitem d (memo_key func args kwargs) r h1)))
      by (rewrite name_of_setitem; eauto using attr_of_is_Some).
    split.
    + split.
      * by rewrite name_of_update_wrapper_ne, name_of_setitem.
      * by rewrite attr_of_update_wrapper_ne, attr_of_setitem.
    + exists (<[memo_key func args kwargs := r]> m1). split.
      * eapply cache_of_eq.
        -- rewrite attr_of_update_wrapper_eq
             by (rewrite ?name_of_setitem; eauto using attr_of_is_Some).
           rewrite decide_False by done. rewrite !attr_of_setitem, Hr1. exact Hd1.
        -- rewrite dicts_update_wrapper. by apply dicts_setitem_eq.
      * rewrite lookup_insert_ne by congruence. by eapply lookup_weaken.
  - destruct (Hresp _ _ _ _ _ _ Hready Hc Hf) as (Hready1 & m1 & Hc1 & Hsub).
    rewrite (memo_wrapper_miss_Raise _ _ _ _ _ _ Hc Hk _ _ Hf). cbn [snd].
    split; [done|]. exists m1. split; [done|]. by eapply lookup_weaken.
Qed.

(** Once a call has left its result in the cache, the result stays
    there through any further calls of the memoized function. *)
Lemma memo_cached_forever args0 kwargs0 v calls : ∀ h,
  memo_ready func h → cached self func args0 kwargs0 v h →
  cached self func args0 kwargs0 v
    (invoke_all (Function self (memo_wrapper self func)) calls h).
Proof.
  induction calls as [|[args kwargs] calls IH]; intros h Hready Hc; [done|].
  rewrite invoke_all_cons. cbn [f_call].
  destruct (memo_call_keeps_cached args0 kwargs0 v args kwargs h Hready Hc).
  by apply IH.
Qed.

(** So a later call with the same arguments, after any further calls,
    returns the first result and leaves the heap as it is, whatever the
    code of the wrapped function: the wrapped function is not called. *)
Lemma memo_lifetime args0 kwargs0 v h h1 calls func' :
  memo_wrapper self func args0 kwargs0 h = (Ok v, h1) →
  memo_ready func h1 →
  f_id func' = f_id func →
  let h2 := invoke_all (Function self (memo_wrapper self func)) calls h1 in
  memo_wrapper self func' args0 kwargs0 h2 = (Ok v, h2).
Proof.
  intros Hcall Hready Hid h2. apply memo_wrapper_hit.
  assert (Hc : cached self func args0 kwargs0 v h2).
  { apply memo_cached_forever; [done|]. by eapply memo_wrapper_caches. }
  destruct Hc as (m & Hc & Hk). exists m. split; [done|].
  unfold memo_key in *. by rewrite Hid.
Qed.
End memo_lifetime.

(** [foo]'s counting wrapper never touches the memo wrapper's cache. *)
Lemma foo_counted_respects : cache_respecting foo_memo foo_counted.
Proof.
  intros args kwargs h o h' m [Hn Hr] Hc Hf.
  assert (Hk : ∀ X (obs : heap → X),
             (∀ a, keeps obs (setattr foo_count "calls" a)) → obs h' = obs h).
  { intros X obs Hset. revert Hf. generalize h o h'.
    change (keeps obs (f_call foo_counted args kwargs)).
    unfold foo_counted. cbn [f_call]. unfold countcalls_wrapper.
    apply keeps_bind; [keeps_tac|intros c].
    apply keeps_bind; [apply Hset|intros _].
    apply keeps_pure, n_ary_wrapper_pure, foo_body_pure. }
  split; [split|].
  - rewrite (Hk _ (name_of (f_id foo_counted))); [done|]. intros a. apply keeps_setattr_name.
  - rewrite (Hk _ (attr_of (f_id foo_counted) "results")); [done|].
    intros a. apply keeps_setattr. solve_ne.
  - exists m. split; [|done]. unfold cache_of in *.
    rewrite (Hk _ (attr_of foo_memo "results")) by (intros a; apply keeps_setattr; solve_ne).
    by rewrite (Hk _ dicts) by (intros a; apply keeps_setattr_dicts).
Qed.


(** ** The loaded module *)

Lemma load_module_ok : (load_module empty_heap).1 = Ok tt.
Proof. reflexivity. Qed.

(** Loading binds the names [foo] and [bar] to the wrappers modelled by
    [foo] and [bar], and [fib] to the wrapper whose body looks up [fib]. *)
Lemma load_foo_returns : (load_foo empty_heap).1 = Ok foo.
Proof. reflexivity. Qed.

Lemma load_bar_returns : (load_bar (load_foo empty_heap).2).1 = Ok bar.
Proof. reflexivity. Qed.

Lemma load_fib_returns fuel :
  (load_fib (fib fuel) ((load_foo;; load_bar) empty_heap).2).1 = Ok (fib (S fuel)).
Proof. reflexivity. Qed.

Lemma module_fib_heap : fib_heap module_heap 0 0 ∅.
Proof. split; reflexivity. Qed.

Lemma module_foo_heap : foo_heap module_heap 0 ∅.
Proof. split; reflexivity. Qed.

Lemma f_id_fib fuel : f_id (fib fuel) = fib_count.
Proof. by destruct fuel. Qed.


(** ** Results *)

(** For a pure binary operation the wrapper made by [n_ary] is the right
    fold of the operation over its arguments. *)
Lemma n_ary_fold_right (func : function) (op : Z → Z → Z) :
  (∀ a b h, f_call func [a; b] [] h = (Ok (op a b), h)) →
  ∀ x rest h, n_ary_wrapper func (x :: rest) [] h = (Ok (fold_right1 op x rest), h).
Proof.
  intros Hop x rest h. rewrite n_ary_wrapper_positional. revert x.
  induction rest as [|y rest IH]; intros x; [done|].
  cbn [n_ary_fold fold_right1]. rewrite (bind_Ok _ _ _ _ _ (IH y)). apply Hop.
Qed.

Lemma fib_returns (n : nat) (extra : nat) :
  (f_call (fib (extra + S n)) [Z.of_nat n] [] module_heap).1 = Ok (fib_spec n).
Proof.
  destruct (fib_call (S n) (Z.of_nat n) module_heap 0 0 ∅ module_fib_heap)
    as (h' & k & m' & inner & Hcall & _); [done|lia|].
  rewrite (fib_fuel_mono (S n) extra _ _ _ _ _ Hcall) by done.
  unfold fib_value. by rewrite Nat2Z.id.
Qed.

(** C1: the demo functions return [foo(4,3) = 7], [foo(4,3,2) = 9],
    [bar(4,3) = 12], [bar(4,3,2,1) = 24] and [fib(5) = 8] on the freshly
    loaded module, and [fib(n)] is the Fibonacci number of [n] given by
    [fib(0) = fib(1) = 1] and [fib(n) = fib(n-1) + fib(n-2)], with any
    fuel above [n]. *)
Theorem demo_results :
  (f_call foo [4; 3] [] module_heap).1 = Ok 7
  ∧ (f_call foo [4; 3; 2] [] module_heap).1 = Ok 9
  ∧ (f_call bar [4; 3] [] module_heap).1 = Ok 12
  ∧ (f_call bar [4; 3; 2; 1] [] module_heap).1 = Ok 24
  ∧ (∀ extra : nat, (f_call (fib (extra + 6)) [5] [] module_heap).1 = Ok 8)
  ∧ fib_spec 0 = 1 ∧ fib_spec 1 = 1
  ∧ (∀ n : nat, fib_spec (S (S n)) = fib_spec (S n) + fib_spec n)
  ∧ (∀ n extra : nat,
       (f_call (fib (extra + S n)) [Z.of_nat n] [] module_heap).1 = Ok (fib_spec n)).
Proof.
  split_and!; try reflexivity.
  - intros extra. apply (fib_returns 5 extra).
  - apply fib_returns.
Qed.


(** A call that has returned is a cache hit when repeated. *)
Lemma memo_hit_again self func func' args kwargs h v h1 :
  memo_wrapper self func args kwargs h = (Ok v, h1) →
  f_id func' = f_id func →
  memo_wrapper self func' args kwargs h1 = (Ok v, h1).
Proof.
  intros Hcall Hid. apply memo_wrapper_hit.
  destruct (memo_wrapper_caches _ _ _ _ _ _ _ Hcall) as (m & Hc & Hk).
  exists m. split; [done|]. unfold memo_key in *. by rewrite Hid.
Qed.




Lemma foo_two_calls args1 kwargs1 args2 kwargs2 :
  (args1, kwargs1) ≠ (args2, kwargs2) →
  attr_of foo_count "calls"
    (invoke_all foo [(args1, kwargs1); (args2, kwargs2)] module_heap) = Some (AInt 2).
Proof.
  intros Hne. rewrite !invoke_all_cons. cbn [invoke_all foldl].
  destruct (foo_call_heap _ _ _ module_foo_heap args1 kwargs1)
    as (c1 & m1 & Hh1 & Hmiss1 & _).
  destruct (Hmiss1 (lookup_empty _)) as [-> Hm1].
  destruct (foo_call_heap _ _ _ Hh1 args2 kwargs2) as (c2 & m2 & Hh2 & Hmiss2 & _).
  assert (Hk2 : m1 !! memo_key foo_counted args2 kwargs2 = None).
  { destruct Hm1 as [->|[v ->]]; [done|].
    rewrite lookup_insert_ne; [done|]. unfold memo_key. congruence. }
  destruct (Hmiss2 Hk2) as [-> _]. apply Hh2.
Qed.

(** C4: the keys of two calls whose positional or keyword arguments
    differ in any way are different, and the second call runs the wrapped
    function again: after two such calls of [foo] on the loaded module,
    the counting wrapper under the memo wrapper has been called twice. *)
Theorem memo_keys_exact (func : function)
    (args1 args2 : list Z) (kwargs1 kwargs2 : list (string * Z)) :
  (args1, kwargs1) ≠ (args2, kwargs2) →
  memo_key func args1 kwargs1 ≠ memo_key func args2 kwargs2
  ∧ attr_of foo_count "calls"
      (invoke_all foo [(args1, kwargs1); (args2, kwargs2)] module_heap) = Some (AInt 2).
Proof.
  intros Hne. split; [|by apply foo_two_calls].
  unfold memo_key. congruence.
Qed.

(** Different arity, different order, positional against keyword. *)
Lemma memo_keys_exact_witness :
  (memo_key foo_counted [4; 3] [] ≠ memo_key foo_counted [4; 3; 2] []
   ∧ attr_of foo_count "calls"
       (invoke_all foo [([4; 3], []); ([4; 3; 2], [])] module_heap) = Some (AInt 2))
  ∧ (memo_key foo_counted [4; 3] [] ≠ memo_key foo_counted [3; 4] []
     ∧ attr_of foo_count "calls"
         (invoke_all foo [([4; 3], []); ([3; 4], [])] module_heap) = Some (AInt 2))
  ∧ (memo_key foo_counted [4] [] ≠ memo_key foo_counted [] [("x", 4)]
     ∧ attr_of foo_count "calls"
         (invoke_all foo [([4], []); ([], [("x", 4)])] module_heap) = Some (AInt 2)).
Proof.
  split; [|split]; apply memo_keys_exact; discriminate.
Defined.

(** The three pairs of calls return equal results all the same. *)
Lemma memo_keys_exact_results :
  (f_call foo [4; 3] [] module_heap).1 = Ok 7
  ∧ (f_call foo [3; 4] [] (f_call foo [4; 3] [] module_heap).2).1 = Ok 7
  ∧ (f_call foo [4] [] module_heap).1 = Ok 4
  ∧ (f_call foo [] [("x", 4)] (f_call foo [4] [] module_heap).2).1 = Ok 4.
Proof. split_and!; reflexivity. Qed.

(** C5: [bar.calls] grows by one with every call of [bar], cache hit or
    not, so by [N] over [N] calls; a call of [foo] repeated with the same
    arguments after it returned leaves the heap, and so [foo.calls], as it
    is; and a call of [foo] that misses the cache and returns sets
    [foo.calls] to the number of calls of the counting wrapper beneath. *)
Theorem counter_position :
  (∀ calls (c : Z) h,
     attr_of (f_id bar) "calls" h = Some (AInt c) →
     attr_of (f_id bar) "calls" (invoke_all bar calls h)
       = Some (AInt (c + Z.of_nat (length calls))))
  ∧ (∀ args kwargs h v h',
       f_call foo args kwargs h = (Ok v, h') →
       f_call foo args kwargs h' = (Ok v, h')
       ∧ attr_of (f_id foo) "calls" (f_call foo args kwargs h').2
         = attr_of (f_id foo) "calls" h')
  ∧ (∀ args kwargs h (c : Z) m v h',
       foo_heap h c m → m !! memo_key foo_counted args kwargs = None →
       f_call foo args kwargs h = (Ok v, h') →
       attr_of (f_id foo) "calls" h' = Some (AInt (c + 1))).
Proof.
  split_and!.
  - intros calls c h Hc. by apply bar_calls_count.
  - intros args kwargs h v h' Hcall.
    pose proof (memo_hit_again foo_memo foo_counted foo_counted args kwargs h v h'
                  Hcall eq_refl) as Hsecond.
    split; [exact Hsecond|].
    change (f_call foo args kwargs h') with (memo_wrapper foo_memo foo_counted args kwargs h').
    by rewrite Hsecond.
  - intros args kwargs h c m v h' Hh Hk Hcall.
    destruct (n_ary_wrapper (Function foo_raw foo_body) args kwargs empty_heap).1
      as [v'|e] eqn:Ho.
    + rewrite (foo_call_miss_Ok _ _ _ Hh _ _ _ Hk Ho) in Hcall.
      injection Hcall as _ <-. cbn [f_id foo].
      apply (foo_calls_store _ _ _ (foo_heap_count _ _ _ Hh)).
    + by rewrite (foo_call_miss_Raise _ _ _ Hh _ _ _ Hk Ho) in Hcall.
Qed.

(** The calls [main] makes: three calls of [bar] count three; the third
    call of [foo] repeats the first and leaves [foo.calls] at two. *)
Lemma counter_position_witness :
  attr_of (f_id bar) "calls"
    (invoke_all bar [([4; 3], []); ([4; 3; 2], []); ([4; 3; 2; 1], [])] module_heap)
    = Some (AInt 3)
  ∧ (let h2 := invoke_all foo [([4; 3], []); ([4; 3; 2], [])] module_heap in
     attr_of (f_id foo) "calls" h2 = Some (AInt 2)
     ∧ attr_of (f_id foo) "calls" (f_call foo [4; 3] [] h2).2 = Some (AInt 2))
  ∧ attr_of (f_id foo) "calls" (f_call foo [4; 3] [] module_heap).2 = Some (AInt 1).
Proof.
  destruct counter_position as (Hbar & Hhit & Hmiss). split; [|split].
  - apply (Hbar [([4; 3], []); ([4; 3; 2], []); ([4; 3; 2; 1], [])] 0 module_heap).
    reflexivity.
  - intros h2. split; [reflexivity|].
    destruct (Hhit [4; 3] [] h2 7 h2) as [_ ->]; reflexivity.
  - apply (Hmiss [4; 3] [] module_heap 0 ∅ 7 _ module_foo_heap); reflexivity.
Defined.


(** ** The trace of fib *)

(** The state and output of a call of [fib] on the loaded module: one
    properly nested block, two lines for each counted call. *)
Lemma module_out : out module_heap = [].
Proof. reflexivity. Qed.

Lemma fib_trace_shape (n : Z) (extra : nat) :
  let h' := (f_call (fib (extra + S (Z.to_nat n))) [n] [] module_heap).2 in
  ∃ k inner,
    out h' = call_block "####" "fib" 1 (str n) (fib_value n) inner
    ∧ well_nested "####" "fib" 2 inner
    ∧ attr_of fib_count "calls" h' = Some (AInt k)
    ∧ Z.of_nat (length (out h')) = 2 * k.
Proof.
  intros h'.
  destruct (fib_call (S (Z.to_nat n)) n module_heap 0 0 ∅ module_fib_heap)
    as (h1 & k & m' & inner & Hcall & Hh1 & _ & _ & _ & Hk & Hout & Hwn & Hlen);
    [done|lia|].
  assert (h' = h1) as ->.
  { unfold h'. by rewrite (fib_fuel_mono _ extra _ _ _ _ _ Hcall). }
  assert (Hout' : out h1 = call_block "####" "fib" 1 (str n) (fib_value n) inner).
  { rewrite Hout. by rewrite module_out. }
  exists k, inner. split_and!.
  - exact Hout'.
  - exact Hwn.
  - rewrite <- (Z.add_0_l k). apply Hh1.
  - rewrite Hout'. unfold call_block. cbn [length]. rewrite length_app. cbn [length]. lia.
Qed.

Lemma fib_fuel_concrete fuel extra args kwargs v h' :
  f_call (fib fuel) args kwargs module_heap = (Ok v, h') →
  f_call (fib (extra + fuel)) args kwargs module_heap = (Ok v, h').
Proof. intros H. by apply (fib_fuel_mono fuel extra). Qed.

(** The two lines of a call differ from the documented format by the
    space [print] puts between the name and the parenthesis. *)
Lemma entry_line_eq tab depth name full_str :
  entry_line tab depth name full_str
  = str_mul tab depth +:+ " --> " +:+ name +:+ " (" +:+ full_str +:+ ")".
Proof. reflexivity. Qed.

Lemma append_assoc s1 s2 s3 : (s1 +:+ s2) +:+ s3 = s1 +:+ (s2 +:+ s3).
Proof.
  induction s1 as [|a s1 IH]; [done|].
  change (String a ((s1 +:+ s2) +:+ s3) = String a (s1 +:+ (s2 +:+ s3))). by f_equal.
Qed.

Lemma exit_line_eq tab depth name full_str result :
  exit_line tab depth name full_str result
  = str_mul tab depth +:+ " <-- " +:+ name +:+ " (" +:+ full_str +:+ ") == " +:+ str result.
Proof.
  unfold exit_line. cbn [String.concat]. by rewrite !append_assoc.
Qed.

Lemma entry_line_not_spec tab depth name full_str :
  entry_line tab depth name full_str ≠ spec_entry_line tab depth name full_str.
Proof.
  rewrite entry_line_eq. unfold spec_entry_line. intros H.
  do 3 apply String.app_inj in H. discriminate H.
Qed.

Lemma exit_line_not_spec tab depth name full_str result :
  exit_line tab depth name full_str result ≠ spec_exit_line tab depth name full_str result.
Proof.
  rewrite exit_line_eq. unfold spec_exit_line. intros H.
  do 3 apply String.app_inj in H. discriminate H.
Qed.

Lemma fib3_run extra :
  f_call (fib (extra + 4)) [3] [] module_heap = (Ok 3, fib3_heap).
Proof.
  apply fib_fuel_concrete. vm_compute. reflexivity.
Qed.

Lemma fib5_run extra :
  f_call (fib (extra + 6)) [5] [] module_heap = (Ok 8, fib5_heap).
Proof.
  apply fib_fuel_concrete. vm_compute. reflexivity.
Qed.

Lemma fib3_out :
  out fib3_heap =
    [ "#### --> fib (3)";
      "######## --> fib (2)";
      "############ --> fib (1)";
      "############ <-- fib (1) == 1";
      "############ --> fib (0)";
      "############ <-- fib (0) == 1";
      "######## <-- fib (2) == 2";
      "######## --> fib (1)";
      "######## <-- fib (1) == 1";
      "#### <-- fib (3) == 3" ].
Proof. vm_compute. reflexivity. Qed.

Lemma fib3_state :
  attr_of fib_count "calls" fib3_heap = Some (AInt 5)
  ∧ size <$> cache_of fib_memo fib3_heap = Some 4%nat.
Proof. vm_compute. split; reflexivity. Qed.

Lemma fib5_state :
  attr_of fib_count "calls" fib5_heap = Some (AInt 9)
  ∧ length (out fib5_heap) = 18%nat
  ∧ size <$> cache_of fib_memo fib5_heap = Some 6%nat.
Proof. vm_compute. split_and!; reflexivity. Qed.

(** C6, evaluated: the entry and exit lines [fib(3)] writes on the
    loaded module have a space between [fib] and the parenthesis, where
    the documented format has none; so has every line of the wrapper. *)
Theorem trace_lines_have_space :
  head (out fib3_heap) = Some "#### --> fib (3)"
  ∧ last (out fib3_heap) = Some "#### <-- fib (3) == 3"
  ∧ spec_entry_line "####" 1 "fib" "3" = "#### --> fib(3)"
  ∧ spec_exit_line "####" 1 "fib" "3" 3 = "#### <-- fib(3) == 3"
  ∧ (∀ tab depth name full_str,
       entry_line tab depth name full_str
       = str_mul tab depth +:+ " --> " +:+ name +:+ " (" +:+ full_str +:+ ")"
       ∧ entry_line tab depth name full_str ≠ spec_entry_line tab depth name full_str)
  ∧ (∀ tab depth name full_str result,
       exit_line tab depth name full_str result
       = str_mul tab depth +:+ " <-- " +:+ name +:+ " (" +:+ full_str +:+ ") == "
           +:+ str result
       ∧ exit_line tab depth name full_str result
         ≠ spec_exit_line tab depth name full_str result).
Proof.
  rewrite fib3_out. split_and!; try reflexivity.
  - intros tab depth name full_str. split; [apply entry_line_eq|apply entry_line_not_spec].
  - intros tab depth name full_str result.
    split; [apply exit_line_eq|apply exit_line_not_spec].
Qed.

(** C7, as stated, fails: the trace of [fib(3)] does not have nine lines. *)
Lemma fib3_trace_not_nine_lines :
  length (out (f_call (fib 4) [3] [] module_heap).2) ≠ 9%nat.
Proof. fold fib3_heap. rewrite fib3_out. discriminate. Qed.

(** C7, amended: [fib(3)] on the loaded module writes ten lines, an entry
    and an exit line for each of its five calls, the second [fib(1)], a
    cache hit, included, while only four distinct arguments are cached;
    the lines form one properly nested block, each entry line paired with
    the exit line of the same call at the same depth. *)
Theorem fib3_trace (extra : nat) :
  let h' := (f_call (fib (extra + 4)) [3] [] module_heap).2 in
  out h' =
    [ "#### --> fib (3)";
      "######## --> fib (2)";
      "############ --> fib (1)";
      "############ <-- fib (1) == 1";
      "############ --> fib (0)";
      "############ <-- fib (0) == 1";
      "######## <-- fib (2) == 2";
      "######## --> fib (1)";
      "######## <-- fib (1) == 1";
      "#### <-- fib (3) == 3" ]
  ∧ length (out h') = 10%nat
  ∧ attr_of fib_count "calls" h' = Some (AInt 5)
  ∧ size <$> cache_of fib_memo h' = Some 4%nat
  ∧ well_nested "####" "fib" 1 (out h').
Proof.
  intros h'.
  destruct (fib_trace_shape 3 extra) as (k & inner & Hout & Hwn & _).
  change (extra + S (Z.to_nat 3))%nat with (extra + 4)%nat in Hout. fold h' in Hout.
  assert (h' = fib3_heap) as Hh' by (unfold h'; by rewrite fib3_run).
  split_and!.
  - rewrite Hh'. apply fib3_out.
  - rewrite Hh', fib3_out. reflexivity.
  - rewrite Hh'. apply (proj1 fib3_state).
  - rewrite Hh'. apply (proj2 fib3_state).
  - rewrite Hout. by apply well_nested_block.
Qed.

(** C8, evaluated: [trace]'s wrapper iterates the keyword dictionary
    itself, so each keyword name is unpacked into [key, value]: a call
    with the keyword [n] raises ValueError before anything is printed or
    called, and a two-letter keyword [ab] is rendered [a=b]. *)
Theorem trace_kwargs_unpack :
  (∀ tab decorator func args (v : Z) h,
     trace_wrapper tab decorator func args [("n", v)] h = (Raise (ValueError_unpack 2 1), h))
  ∧ (f_call (fib 4) [] [("n", 3)] module_heap).1 = Raise (ValueError_unpack 2 1)
  ∧ out (f_call (fib 4) [] [("n", 3)] module_heap).2 = []
  ∧ args_string [1] [("ab", 5)] = Ok "1,a=b".
Proof. split_and!; [reflexivity|vm_compute; reflexivity..]. Qed.

(** C9: the body of [fib] calls the module's [fib], the fully decorated
    function, so every recursive call is counted, traced and memoized:
    [fib(5)] on the loaded module returns 8 after nine counted calls,
    eighteen trace lines and six cached results; and for every [n] the
    trace has two lines for each counted call. *)
Theorem fib_recursion_decorated :
  (∀ fuel,
     f_call (fib (S fuel)) =
       countcalls_wrapper fib_count
         (Function fib_trace
            (trace_wrapper "####" fib_decorator
               (Function fib_memo
                  (memo_wrapper fib_memo (Function fib_raw (fib_body (fib fuel))))))))
  ∧ (∀ fuel, (load_fib (fib fuel) ((load_foo;; load_bar) empty_heap).2).1 = Ok (fib (S fuel)))
  ∧ (∀ extra : nat,
       let r := f_call (fib (extra + 6)) [5] [] module_heap in
       r.1 = Ok 8
       ∧ attr_of (f_id (fib (extra + 6))) "calls" r.2 = Some (AInt 9)
       ∧ length (out r.2) = 18%nat
       ∧ size <$> cache_of fib_memo r.2 = Some 6%nat)
  ∧ (∀ (n : Z) (extra : nat),
       let h' := (f_call (fib (extra + S (Z.to_nat n))) [n] [] module_heap).2 in
       ∃ k, attr_of fib_count "calls" h' = Some (AInt k)
            ∧ Z.of_nat (length (out h')) = 2 * k).
Proof.
  split_and!; [reflexivity|reflexivity| |].
  - intros extra r. unfold r. rewrite fib5_run, f_id_fib. cbn [fst snd].
    split; [reflexivity|apply fib5_state].
  - intros n extra h'. destruct (fib_trace_shape n extra) as (k & inner & _ & _ & Hk & Hlen).
    by exists k.
Qed.

(** What [main] prints. *)
Lemma main_output :
  out (main 6 module_heap).2 =
    [ "7"; "9"; "7"; "foo was called 2 times";
      "12"; "24"; "24"; "bar was called 3 times";
      fib_doc;
      "#### --> fib (5)";
      "######## --> fib (4)";
      "############ --> fib (3)";
      "################ --> fib (2)";
      "#################### --> fib (1)";
      "#################### <-- fib (1) == 1";
      "#################### --> fib (0)";
      "#################### <-- fib (0) == 1";
      "################ <-- fib (2) == 2";
      "################ --> fib (1)";
      "################ <-- fib (1) == 1";
      "############ <-- fib (3) == 3";
      "############ --> fib (2)";
      "############ <-- fib (2) == 2";
      "######## <-- fib (4) == 5";
      "######## --> fib (3)";
      "######## <-- fib (3) == 3";
      "#### <-- fib (5) == 8";
      "9 calls made" ].
Proof. vm_compute. reflexivity. Qed.

(** On the loaded module too, a call without arguments raises. *)
Lemma foo_no_arguments :
  (f_call foo [] [] module_heap).1 = Raise (TypeError_missing_argument "x")
  ∧ (f_call bar [] [] module_heap).1 = Raise (TypeError_missing_argument "x").
Proof. split; reflexivity. Qed.

(** * Further properties *)

(** ** One call of fib, step by step *)

Lemma fib_entered_heap s h c d m :
  fib_heap h c d m →
  fib_heap (fib_entered s c d h) (c + 1) (d + 1) m
  ∧ out (fib_entered s c d h) = out h ++ [entry_line "####" (d + 1) "fib" s].
Proof.
  intros Hh. split.
  - unfold fib_entered.
    apply (fib_heap_enter _ _ _ _ (fib_heap_count _ _ _ _ Hh (c + 1))).
  - unfold fib_entered, trace_enter. by heap_obs.
Qed.

Lemma fib_call_Raise fuel args kwargs s h c d m e h3 :
  fib_heap h c d m → args_string args kwargs = Ok s →
  memo_wrapper fib_memo (fib_inner fuel) args kwargs (fib_entered s c d h) = (Raise e, h3) →
  f_call (fib (S fuel)) args kwargs h = (Raise e, h3).
Proof.
  intros Hh Hs Hcall. simpl fib. cbn [f_call].
  rewrite (countcalls_wrapper_eq _ _ _ _ c) by apply Hh.
  pose proof (fib_heap_count _ _ _ _ Hh (c + 1)) as Hh1.
  eapply (trace_wrapper_Raise "####" fib_decorator
            (Function fib_memo (memo_wrapper fib_memo (fib_inner fuel)))
            args kwargs s "fib" d _ Hs); try apply Hh1.
  exact Hcall.
Qed.

Lemma fib_call_Ok fuel args kwargs s h c d m v h3 c3 m3 :
  fib_heap h c d m → args_string args kwargs = Ok s →
  memo_wrapper fib_memo (fib_inner fuel) args kwargs (fib_entered s c d h) = (Ok v, h3) →
  fib_heap h3 c3 (d + 1) m3 →
  let h' := trace_leave "####" fib_decorator (d + 1) "fib" s v h3 in
  f_call (fib (S fuel)) args kwargs h = (Ok v, h')
  ∧ fib_heap h' c3 d m3
  ∧ out h' = out h3 ++ [exit_line "####" (d + 1) "fib" s v].
Proof.
  intros Hh Hs Hcall Hh3 h'. split_and!.
  - simpl fib. cbn [f_call].
    rewrite (countcalls_wrapper_eq _ _ _ _ c) by apply Hh.
    pose proof (fib_heap_count _ _ _ _ Hh (c + 1)) as Hh1.
    eapply (trace_wrapper_Ok "####" fib_decorator
              (Function fib_memo (memo_wrapper fib_memo (fib_inner fuel)))
              args kwargs s "fib" d _ Hs); try apply Hh1; try apply Hh3.
    exact Hcall.
  - unfold h'. replace d with (d + 1 - 1) at 2 by lia. by apply fib_heap_leave.
  - unfold h', trace_leave. by heap_obs.
Qed.

(** A cache hit: one counted call, two lines, cache as it was. *)
Lemma fib_call_hit fuel n h c d m v :
  fib_heap h c d m → m !! fib_key n = Some v →
  ∃ h', f_call (fib (S fuel)) [n] [] h = (Ok v, h')
    ∧ fib_heap h' (c + 1) d m
    ∧ out h' = out h ++ [entry_line "####" (d + 1) "fib" (str n);
                         exit_line "####" (d + 1) "fib" (str n) v].
Proof.
  intros Hh Hk. destruct (fib_entered_heap (str n) _ _ _ _ Hh) as [Hh2 Hout2].
  destruct (fib_call_Ok fuel [n] [] (str n) h c d m v (fib_entered (str n) c d h)
              (c + 1) m Hh (args_string_one n))
    as (Hcall & Hh' & Hout'); [|exact Hh2|].
  { apply memo_wrapper_hit. exists m. split; [|exact Hk].
    eapply cache_of_eq; apply Hh2. }
  eexists. split_and!; [exact Hcall|exact Hh'|].
  rewrite Hout', Hout2, <- app_assoc. reflexivity.
Qed.

(** A cache miss whose body returns: the result is stored and the exit
    line follows whatever the body wrote. *)
Lemma fib_call_miss fuel n h c d m v hb cb mb :
  fib_heap h c d m → m !! fib_key n = None →
  fib_body (fib fuel) [n] [] (fib_entered (str n) c d h) = (Ok v, hb) →
  fib_heap hb cb (d + 1) mb →
  ∃ h', f_call (fib (S fuel)) [n] [] h = (Ok v, h')
    ∧ fib_heap h' cb d (<[fib_key n := v]> mb)
    ∧ out h' = out hb ++ [exit_line "####" (d + 1) "fib" (str n) v].
Proof.
  intros Hh Hk Hbody Hhb. destruct (fib_entered_heap (str n) _ _ _ _ Hh) as [Hh2 Hout2].
  assert (Hc2 : cache_of fib_memo (fib_entered (str n) c d h) = Some m)
    by (eapply cache_of_eq; apply Hh2).
  destruct (fib_call_Ok fuel [n] [] (str n) h c d m v
              (heap_update_wrapper fib_memo fib_raw (heap_setitem fib_memo (fib_key n) v hb))
              cb (<[fib_key n := v]> mb) Hh (args_string_one n))
    as (Hcall & Hh' & Hout').
  - eapply (memo_wrapper_miss_Ok _ (fib_inner fuel) _ _ _ _ Hc2 Hk); try apply Hhb.
    + exact Hbody.
    + destruct Hhb. simpl. eauto.
  - by apply fib_heap_store.
  - eexists. split_and!; [exact Hcall|exact Hh'|]. rewrite Hout'. by heap_obs.
Qed.

(** A call with [n <= 1] does not recurse, cached or not. *)
Lemma fib_call_base (fuel : nat) (n : Z) (h : heap) (c d : Z)
    (m : gmap (nat * list Z * list (string * Z)) Z) :
  fib_heap h c d m → cache_sound m → n ≤ 1 →
  ∃ h', f_call (fib (S fuel)) [n] [] h = (Ok 1, h')
    ∧ fib_heap h' (c + 1) d (<[fib_key n := 1]> m)
    ∧ out h' = out h ++ [entry_line "####" (d + 1) "fib" (str n);
                         exit_line "####" (d + 1) "fib" (str n) 1].
Proof.
  intros Hh Hm Hn. destruct (m !! fib_key n) as [v|] eqn:Hk.
  - pose proof (Hm _ _ Hk) as ->. rewrite (fib_value_base n Hn) in Hk.
    destruct (fib_call_hit fuel n h c d m 1 Hh Hk) as (h' & Hcall & Hh' & Hout).
    exists h'. rewrite insert_id by done. done.
  - destruct (fib_entered_heap (str n) _ _ _ _ Hh) as [Hh2 Hout2].
    destruct (fib_call_miss fuel n h c d m 1 _ (c + 1) m Hh Hk
                (fib_body_base _ n _ Hn) Hh2) as (h' & Hcall & Hh' & Hout).
    exists h'. split_and!; [done|done|].
    rewrite Hout, Hout2, <- app_assoc. reflexivity.
Qed.

(** X17: [fib(n)] for [n <= 1], negative [n] included, returns 1 without
    recursing, whether the result is cached or not: one counted call, the
    entry and the exit line of that call, [depth] as before, and 1 cached
    for [n]. *)
Theorem fib_nonpositive (fuel : nat) (n : Z) (h : heap) (c d : Z)
    (m : gmap (nat * list Z * list (string * Z)) Z) :
  fib_heap h c d m → cache_sound m → n ≤ 1 →
  ∃ h', f_call (fib (S fuel)) [n] [] h = (Ok 1, h')
    ∧ fib_heap h' (c + 1) d (<[fib_key n := 1]> m)
    ∧ out h' = out h ++ [entry_line "####" (d + 1) "fib" (str n);
                         exit_line "####" (d + 1) "fib" (str n) 1].
Proof. apply fib_call_base. Qed.

Lemma fib_nonpositive_witness :
  ∃ h', f_call (fib 1) [-3] [] module_heap = (Ok 1, h')
    ∧ fib_heap h' (0 + 1) 0 (<[fib_key (-3) := 1]> ∅)
    ∧ out h' = out module_heap ++ [entry_line "####" (0 + 1) "fib" (str (-3));
                                   exit_line "####" (0 + 1) "fib" (str (-3)) 1].
Proof.
  apply (fib_nonpositive 0 (-3) module_heap 0 0 ∅ module_fib_heap); [by intros ? ?|lia].
Defined.

(** ** How many calls a fresh fib(n) makes *)

Lemma fib_key_inj i j : fib_key i = fib_key j → i = j.
Proof. by intros [=]. Qed.

(** A call [fib(n)], [n >= 2], on a cache that holds none of the
    arguments up to [n]: [2n - 1] counted calls, of which [n + 1] are
    misses that fill the cache for [0..n]. *)
Lemma fib_fresh_call fuel : ∀ n h c d m,
  fib_heap h c d m → cache_sound m → 2 ≤ n → (Z.to_nat n < fuel)%nat →
  (∀ i, i ≤ n → m !! fib_key i = None) →
  ∃ h' m',
    f_call (fib fuel) [n] [] h = (Ok (fib_value n), h')
    ∧ fib_heap h' (c + (2 * n - 1)) d m'
    ∧ cache_sound m'
    ∧ (∀ i, 0 ≤ i ≤ n → m' !! fib_key i = Some (fib_value i))
    ∧ (∀ i, n < i → m' !! fib_key i = m !! fib_key i)
    ∧ size m' = (size m + Z.to_nat (n + 1))%nat
    ∧ Z.of_nat (length (out h')) = Z.of_nat (length (out h)) + 2 * (2 * n - 1).
Proof.
  induction fuel as [|fuel IH]; intros n h c d m Hh Hm Hn Hfuel Hfresh; [lia|].
  destruct (fib_entered_heap (str n) _ _ _ _ Hh) as [Hh2 Hout2].
  set (h2 := fib_entered (str n) c d h) in *.
  assert (Hstep : fib_body (fib fuel) [n] [] h2
          = (a ← f_call (fib fuel) [n - 1] []; b ← f_call (fib fuel) [n - 2] []; mret (a + b)) h2)
    by (apply fib_body_step; lia).
  (* the two recursive calls *)
  assert (∃ hb mb,
    fib_body (fib fuel) [n] [] h2 = (Ok (fib_value n), hb)
    ∧ fib_heap hb (c + (2 * n - 1)) (d + 1) mb
    ∧ cache_sound mb
    ∧ (∀ i, 0 ≤ i ≤ n - 1 → mb !! fib_key i = Some (fib_value i))
    ∧ (∀ i, n - 1 < i → mb !! fib_key i = m !! fib_key i)
    ∧ size mb = (size m + Z.to_nat n)%nat
    ∧ Z.of_nat (length (out hb)) = Z.of_nat (length (out h2)) + 2 * (2 * n - 2))
    as (hb & mb & Hbody & Hhb & Hmb & Hin & Hout & Hsize & Hlen).
  { rewrite Hstep. destruct (decide (n = 2)) as [->|Hn2].
    - (* fib(1) and fib(0), both misses *)
      destruct fuel as [|fuel]; [lia|].
      destruct (fib_call_base fuel 1 h2 _ _ _ Hh2 Hm ltac:(lia)) as (ha & Ha & Hha & Houta).
      assert (Hma : cache_sound (<[fib_key 1 := 1]> m))
        by (rewrite <- (fib_value_base 1) by lia; by apply cache_sound_insert).
      destruct (fib_call_base fuel 0 ha _ _ _ Hha Hma ltac:(lia)) as (hb & Hb & Hhb & Houtb).
      exists hb, (<[fib_key 0 := 1]> (<[fib_key 1 := 1]> m)).
      change (2 - 1) with 1. change (2 - 2) with 0.
      rewrite (bind_Ok _ _ _ _ _ Ha), (bind_Ok _ _ _ _ _ Hb). split_and!.
      + reflexivity.
      + replace (c + (2 * 2 - 1)) with (c + 1 + 1 + 1) by lia. exact Hhb.
      + rewrite <- (fib_value_base 0) by lia. by apply cache_sound_insert.
      + intros i Hi. assert (i = 0 ∨ i = 1) as [-> | ->] by lia.
        * by rewrite lookup_insert_eq.
        * rewrite lookup_insert_ne by (by intros [=]). by rewrite lookup_insert_eq.
      + intros i Hi. by rewrite !lookup_insert_ne by (intros [=]; lia).
      + rewrite !map_size_insert_None; [simpl; lia| |].
        * apply Hfresh. lia.
        * rewrite lookup_insert_ne by (by intros [=]). apply Hfresh. lia.
      + rewrite Houtb, Houta, !length_app. cbn [length]. lia.
    - (* fib(n-1) fresh, then fib(n-2) a hit *)
      destruct (IH (n - 1) h2 _ _ _ Hh2 Hm ltac:(lia) ltac:(lia))
        as (ha & ma & Ha & Hha & Hma & Hina & Houta & Hsizea & Hlena).
      { intros i Hi. apply Hfresh. lia. }
      destruct fuel as [|fuel]; [lia|].
      destruct (fib_call_hit fuel (n - 2) ha _ _ ma (fib_value (n - 2)) Hha)
        as (hb & Hb & Hhb & Houtb); [apply Hina; lia|].
      exists hb, ma. rewrite (bind_Ok _ _ _ _ _ Ha), (bind_Ok _ _ _ _ _ Hb). split_and!.
      + by rewrite (fib_value_step n) by lia.
      + replace (c + (2 * n - 1)) with (c + 1 + (2 * (n - 1) - 1) + 1) by lia. exact Hhb.
      + exact Hma.
      + exact Hina.
      + exact Houta.
      + rewrite Hsizea. lia.
      + rewrite Houtb, length_app. cbn [length]. lia. }
  assert (Hkn : mb !! fib_key n = None) by (rewrite Hout by lia; apply Hfresh; lia).
  destruct (fib_call_miss fuel n h c d m (fib_value n) hb _ mb Hh (Hfresh n ltac:(lia))
              Hbody Hhb) as (h' & Hcall & Hh' & Hout').
  exists h', (<[fib_key n := fib_value n]> mb). split_and!.
  - exact Hcall.
  - exact Hh'.
  - by apply cache_sound_insert.
  - intros i Hi. destruct (decide (i = n)) as [->|Hne].
    + by rewrite lookup_insert_eq.
    + rewrite lookup_insert_ne by (intros [=]; lia). apply Hin. lia.
  - intros i Hi. rewrite lookup_insert_ne by (intros [=]; lia). apply Hout. lia.
  - rewrite map_size_insert_None by done. rewrite Hsize. lia.
  - rewrite Hout', length_app. rewrite Hout2, length_app in Hlen.
    cbn [length] in *. lia.
Qed.

Lemma module_cache_empty : cache_sound ∅ ∧ ∀ k : nat * list Z * list (string * Z),
  (∅ : gmap (nat * list Z * list (string * Z)) Z) !! k = None.
Proof. split; [by intros n v|]. intros k. apply lookup_empty. Qed.

(** X18: on the freshly loaded module [fib(n)], [n >= 2], makes exactly
    [2n - 1] counted calls, writes [4n - 2] trace lines and leaves [n + 1]
    cached results: memoization makes the number of calls linear. *)
Theorem fib_calls_linear (n : Z) (extra : nat) :
  2 ≤ n →
  let r := f_call (fib (extra + S (Z.to_nat n))) [n] [] module_heap in
  r.1 = Ok (fib_value n)
  ∧ attr_of (f_id (fib (extra + S (Z.to_nat n)))) "calls" r.2 = Some (AInt (2 * n - 1))
  ∧ Z.of_nat (length (out r.2)) = 4 * n - 2
  ∧ size <$> cache_of fib_memo r.2 = Some (Z.to_nat (n + 1)).
Proof.
  intros Hn r.
  destruct (fib_fresh_call (S (Z.to_nat n)) n module_heap 0 0 ∅ module_fib_heap)
    as (h' & m' & Hcall & Hh' & _ & _ & _ & Hsize & Hlen);
    [by intros ? ?|done|lia|intros; apply lookup_empty|].
  assert (r = (Ok (fib_value n), h')) as ->.
  { unfold r. by apply (fib_fuel_mono _ extra). }
  cbn [fst snd]. rewrite f_id_fib. split_and!.
  - reflexivity.
  - rewrite <- (Z.add_0_l (2 * n - 1)). apply Hh'.
  - rewrite Hlen, module_out. cbn [length]. lia.
  - erewrite cache_of_eq; [|apply Hh'..]. cbn. by rewrite Hsize, map_size_empty.
Qed.

Lemma fib_calls_linear_witness :
  let r := f_call (fib 6) [5] [] module_heap in
  r.1 = Ok (fib_value 5)
  ∧ attr_of (f_id (fib 6)) "calls" r.2 = Some (AInt 9)
  ∧ Z.of_nat (length (out r.2)) = 18
  ∧ size <$> cache_of fib_memo r.2 = Some 6%nat.
Proof. apply (fib_calls_linear 5 0). lia. Defined.

(** ** More on calls of fib *)

(** X19: a call [fib(n)] that has returned, made again on the heap it
    left, is a cache hit: same result, one more counted call, its own
    entry and exit line only, cache as it was. *)
Theorem fib_repeat_call (fuel : nat) (n : Z) (h : heap) (c d : Z)
    (m : gmap (nat * list Z * list (string * Z)) Z) :
  fib_heap h c d m → cache_sound m → (Z.to_nat n < fuel)%nat →
  ∃ h1 c1 m1 h2,
    f_call (fib fuel) [n] [] h = (Ok (fib_value n), h1)
    ∧ fib_heap h1 c1 d m1
    ∧ f_call (fib fuel) [n] [] h1 = (Ok (fib_value n), h2)
    ∧ fib_heap h2 (c1 + 1) d m1
    ∧ out h2 = out h1 ++ [entry_line "####" (d + 1) "fib" (str n);
                          exit_line "####" (d + 1) "fib" (str n) (fib_value n)].
Proof.
  intros Hh Hm Hfuel.
  destruct (fib_call fuel n h c d m Hh Hm Hfuel)
    as (h1 & k & m1 & inner & Hcall & Hh1 & _ & _ & Hk & _).
  destruct fuel as [|fuel]; [lia|].
  destruct (fib_call_hit fuel n h1 _ _ m1 _ Hh1 Hk) as (h2 & Hcall2 & Hh2 & Hout2).
  by exists h1, (c + k), m1, h2.
Qed.

Lemma fib_repeat_call_witness :
  ∃ h1 c1 m1 h2,
    f_call (fib 4) [3] [] module_heap = (Ok (fib_value 3), h1)
    ∧ fib_heap h1 c1 0 m1
    ∧ f_call (fib 4) [3] [] h1 = (Ok (fib_value 3), h2)
    ∧ fib_heap h2 (c1 + 1) 0 m1
    ∧ out h2 = out h1 ++ [entry_line "####" (0 + 1) "fib" (str 3);
                          exit_line "####" (0 + 1) "fib" (str 3) (fib_value 3)].
Proof.
  apply (fib_repeat_call 4 3 module_heap 0 0 ∅ module_fib_heap); [by intros ? ?|].
  vm_compute. lia.
Defined.

(** X20: whatever [n] and whatever the depth and cache the call starts
    from, the lines a call [fib(n)] writes form one properly nested block
    at the next depth, and [depth] is back at its value when it returns. *)
Theorem fib_trace_nested (fuel : nat) (n : Z) (h : heap) (c d : Z)
    (m : gmap (nat * list Z * list (string * Z)) Z) :
  fib_heap h c d m → cache_sound m → (Z.to_nat n < fuel)%nat →
  ∃ h' block,
    f_call (fib fuel) [n] [] h = (Ok (fib_value n), h')
    ∧ out h' = out h ++ block
    ∧ well_nested "####" "fib" (d + 1) block
    ∧ head block = Some (entry_line "####" (d + 1) "fib" (str n))
    ∧ last block = Some (exit_line "####" (d + 1) "fib" (str n) (fib_value n))
    ∧ attr_of fib_decorator "depth" h' = Some (AInt d).
Proof.
  intros Hh Hm Hfuel.
  destruct (fib_call fuel n h c d m Hh Hm Hfuel)
    as (h' & k & m' & inner & Hcall & Hh' & _ & _ & _ & _ & Hout & Hwn & _).
  exists h', (call_block "####" "fib" (d + 1) (str n) (fib_value n) inner).
  split_and!; try done.
  - apply well_nested_block. by replace (d + 1 + 1) with (d + 2) by lia.
  - unfold call_block. by rewrite app_comm_cons, last_snoc.
  - apply Hh'.
Qed.

Lemma fib_trace_nested_witness :
  ∃ h' block,
    f_call (fib 6) [5] [] module_heap = (Ok (fib_value 5), h')
    ∧ out h' = out module_heap ++ block
    ∧ well_nested "####" "fib" (0 + 1) block
    ∧ head block = Some (entry_line "####" (0 + 1) "fib" (str 5))
    ∧ last block = Some (exit_line "####" (0 + 1) "fib" (str 5) (fib_value 5))
    ∧ attr_of fib_decorator "depth" h' = Some (AInt 0).
Proof.
  apply (fib_trace_nested 6 5 module_heap 0 0 ∅ module_fib_heap); [by intros ? ?|].
  vm_compute. lia.
Defined.

Lemma args_string_positional args :
  args_string args [] = Ok (String.concat "," (str <$> args)).
Proof. unfold args_string. simpl. by rewrite andb_false_r, append_empty_r. Qed.

Lemma fib_body_wrong_arity g args h :
  length args ≠ 1%nat →
  fib_body g args [] h =
    (Raise (match args with
            | [] => TypeError_missing_argument "n"
            | _ => TypeError_too_many_positional
            end), h).
Proof.
  intros Hlen. destruct args as [|a [|b rest]]; [reflexivity|done|reflexivity].
Qed.

(** X21: a call of [fib] with no argument or with more than one raises
    TypeError from the body, after the call is counted and its entry line
    written; nothing is cached, no exit line is written, and [depth] stays
    one higher, so the trace of any later call is indented one unit more. *)
Theorem fib_wrong_arity (fuel : nat) (args : list Z) (h : heap) (c d : Z)
    (m : gmap (nat * list Z * list (string * Z)) Z) :
  fib_heap h c d m → cache_sound m →
  length args ≠ 1%nat → m !! (fib_raw, args, []) = None →
  ∃ h',
    f_call (fib (S fuel)) args [] h =
      (Raise (match args with
              | [] => TypeError_missing_argument "n"
              | _ => TypeError_too_many_positional
              end), h')
    ∧ fib_heap h' (c + 1) (d + 1) m
    ∧ out h' = out h ++ [entry_line "####" (d + 1) "fib" (String.concat "," (str <$> args))]
    ∧ (∀ n fuel', (Z.to_nat n < fuel')%nat →
         ∃ h'' block,
           f_call (fib fuel') [n] [] h' = (Ok (fib_value n), h'')
           ∧ out h'' = out h' ++ block
           ∧ head block = Some (entry_line "####" (d + 2) "fib" (str n))).
Proof.
  intros Hh Hm Hlen Hk.
  set (s := String.concat "," (str <$> args)).
  destruct (fib_entered_heap s _ _ _ _ Hh) as [Hh2 Hout2].
  exists (fib_entered s c d h). split_and!; [|exact Hh2|exact Hout2|].
  - eapply (fib_call_Raise fuel args [] s h c d m _ _ Hh (args_string_positional args)).
    eapply memo_wrapper_miss_Raise; [eapply cache_of_eq; apply Hh2|exact Hk|].
    by apply fib_body_wrong_arity.
  - intros n fuel' Hfuel.
    destruct (fib_call fuel' n _ _ _ _ Hh2 Hm Hfuel)
      as (h'' & k & m' & inner & Hcall & _ & _ & _ & _ & _ & Hout & _).
    exists h'', (call_block "####" "fib" (d + 1 + 1) (str n) (fib_value n) inner).
    split_and!; [done|done|]. by replace (d + 2) with (d + 1 + 1) by lia.
Qed.

Lemma fib_wrong_arity_witness :
  ∃ h',
    f_call (fib 1) [1; 2] [] module_heap = (Raise TypeError_too_many_positional, h')
    ∧ fib_heap h' (0 + 1) (0 + 1) ∅
    ∧ out h' = out module_heap ++ [entry_line "####" (0 + 1) "fib" "1,2"]
    ∧ (∀ n fuel', (Z.to_nat n < fuel')%nat →
         ∃ h'' block,
           f_call (fib fuel') [n] [] h' = (Ok (fib_value n), h'')
           ∧ out h'' = out h' ++ block
           ∧ head block = Some (entry_line "####" (0 + 2) "fib" (str n))).
Proof.
  apply (fib_wrong_arity 0 [1; 2] module_heap 0 0 ∅ module_fib_heap);
    [by intros ? ?|discriminate|reflexivity].
Defined.

(** ** The tracer around any function *)

Lemma trace_enter_obs tab dec d name s h :
  attr_of dec "depth" h = Some (AInt d) →
  attr_of dec "depth" (trace_enter tab dec d name s h) = Some (AInt (d + 1))
  ∧ out (trace_enter tab dec d name s h) = out h ++ [entry_line tab (d + 1) name s]
  ∧ dicts (trace_enter tab dec d name s h) = dicts h
  ∧ (∀ g, name_of g (trace_enter tab dec d name s h) = name_of g h)
  ∧ (∀ g n, (g, n) ≠ (dec, "depth") →
       attr_of g n (trace_enter tab dec d name s h) = attr_of g n h).
Proof.
  intros Hd. unfold trace_enter. split_and!.
  - rewrite attr_of_print. apply attr_of_setattr_eq. eauto using attr_of_is_Some.
  - by rewrite out_print, out_setattr.
  - by rewrite dicts_print, dicts_setattr.
  - intros g. by rewrite name_of_print, name_of_setattr.
  - intros g n Hne. by rewrite attr_of_print, attr_of_setattr_ne.
Qed.

(** X9: around a function that returns and leaves [depth] and its own
    name as they were, the tracer returns the function's result unchanged
    and puts [depth] back; the function runs after the entry line is
    written, and the exit line of the same call, with the result, is the
    only thing written after it.  Nothing else in the heap changes. *)
Theorem trace_returns (tab : string) (decorator : nat) (func : function)
    (args : list Z) (kwargs : list (string * Z)) (s name : string) (d : Z)
    (h : heap) (result : Z) (h2 : heap) :
  args_string args kwargs = Ok s →
  attr_of decorator "depth" h = Some (AInt d) →
  name_of (f_id func) h = Some name →
  f_call func args kwargs (trace_enter tab decorator d name s h) = (Ok result, h2) →
  attr_of decorator "depth" h2 = Some (AInt (d + 1)) →
  name_of (f_id func) h2 = Some name →
  ∃ h3,
    trace_wrapper tab decorator func args kwargs h = (Ok result, h3)
    ∧ out (trace_enter tab decorator d name s h) = out h ++ [entry_line tab (d + 1) name s]
    ∧ out h3 = out h2 ++ [exit_line tab (d + 1) name s result]
    ∧ attr_of decorator "depth" h3 = Some (AInt d)
    ∧ dicts h3 = dicts h2
    ∧ (∀ g n, (g, n) ≠ (decorator, "depth") → attr_of g n h3 = attr_of g n h2).
Proof.
  intros Hs Hd Hn Hcall Hd2 Hn2.
  exists (trace_leave tab decorator (d + 1) name s result h2). split_and!.
  - by apply (trace_wrapper_Ok tab decorator func args kwargs s name d h Hs Hd Hn).
  - by apply trace_enter_obs.
  - unfold trace_leave. by rewrite out_setattr, out_print.
  - unfold trace_leave.
    replace (Some (AInt d)) with (Some (AInt (d + 1 - 1))) by (do 2 f_equal; lia).
    apply attr_of_setattr_eq. rewrite name_of_print. eauto using attr_of_is_Some.
  - unfold trace_leave. by rewrite dicts_setattr, dicts_print.
  - intros g n Hne. unfold trace_leave. by rewrite attr_of_setattr_ne, attr_of_print.
Qed.

(** A traced pure function on the loaded module: [bar]'s n-ary wrapper
    under [fib]'s tracer object. *)
Lemma trace_returns_witness :
  ∃ h3,
    trace_wrapper "####" fib_decorator
      (Function bar_nary (n_ary_wrapper (Function bar_raw bar_body))) [4; 3] [] module_heap
      = (Ok 12, h3)
    ∧ out (trace_enter "####" fib_decorator 0 "bar" "4,3" module_heap)
      = out module_heap ++ [entry_line "####" (0 + 1) "bar" "4,3"]
    ∧ out h3 = out (trace_enter "####" fib_decorator 0 "bar" "4,3" module_heap)
                 ++ [exit_line "####" (0 + 1) "bar" "4,3" 12]
    ∧ attr_of fib_decorator "depth" h3 = Some (AInt 0)
    ∧ dicts h3 = dicts (trace_enter "####" fib_decorator 0 "bar" "4,3" module_heap)
    ∧ (∀ g n, (g, n) ≠ (fib_decorator, "depth") →
         attr_of g n h3 = attr_of g n (trace_enter "####" fib_decorator 0 "bar" "4,3" module_heap)).
Proof.
  apply (trace_returns "####" fib_decorator
           (Function bar_nary (n_ary_wrapper (Function bar_raw bar_body)))
           [4; 3] [] "4,3" "bar" 0 module_heap 12); vm_compute; reflexivity.
Defined.

(** X10: when the traced function raises, the tracer passes the exception
    on with the heap exactly as the function left it: the entry line was
    written and [depth] raised before the call, but no exit line is
    written and [depth] is not lowered again. *)
Theorem trace_raises (tab : string) (decorator : nat) (func : function)
    (args : list Z) (kwargs : list (string * Z)) (s name : string) (d : Z)
    (h : heap) (e : exn) (h2 : heap) :
  args_string args kwargs = Ok s →
  attr_of decorator "depth" h = Some (AInt d) →
  name_of (f_id func) h = Some name →
  f_call func args kwargs (trace_enter tab decorator d name s h) = (Raise e, h2) →
  trace_wrapper tab decorator func args kwargs h = (Raise e, h2)
  ∧ out (trace_enter tab decorator d name s h) = out h ++ [entry_line tab (d + 1) name s]
  ∧ attr_of decorator "depth" (trace_enter tab decorator d name s h) = Some (AInt (d + 1))
  ∧ (keeps (attr_of decorator "depth") (f_call func args kwargs) →
     attr_of decorator "depth" h2 = Some (AInt (d + 1)))
  ∧ (keeps out (f_call func args kwargs) →
     out h2 = out h ++ [entry_line tab (d + 1) name s]).
Proof.
  intros Hs Hd Hn Hcall.
  destruct (trace_enter_obs tab decorator d name s h Hd) as (Hd1 & Hout1 & _).
  split_and!.
  - by apply (trace_wrapper_Raise tab decorator func args kwargs s name d h Hs Hd Hn).
  - exact Hout1.
  - exact Hd1.
  - intros Hk. by rewrite (Hk _ _ _ Hcall).
  - intros Hk. by rewrite (Hk _ _ _ Hcall).
Qed.

(** [bar]'s n-ary wrapper called without arguments under the tracer. *)
Lemma trace_raises_witness :
  let func := Function bar_nary (n_ary_wrapper (Function bar_raw bar_body)) in
  let h1 := trace_enter "####" fib_decorator 0 "bar" "" module_heap in
  trace_wrapper "####" fib_decorator func [] [] module_heap
    = (Raise (TypeError_missing_argument "x"), h1)
  ∧ out h1 = out module_heap ++ [entry_line "####" (0 + 1) "bar" ""]
  ∧ attr_of fib_decorator "depth" h1 = Some (AInt (0 + 1))
  ∧ (keeps (attr_of fib_decorator "depth") (f_call func [] []) →
     attr_of fib_decorator "depth" h1 = Some (AInt (0 + 1)))
  ∧ (keeps out (f_call func [] []) →
     out h1 = out module_heap ++ [entry_line "####" (0 + 1) "bar" ""]).
Proof.
  intros func h1.
  apply (trace_raises "####" fib_decorator func [] [] "" "bar" 0 module_heap);
    vm_compute; reflexivity.
Defined.

(** ** What the tracer shows of keyword arguments *)

Lemma unpack2_Ok s : String.length s = 2%nat → ∃ a b, unpack2 s = Ok (a, b).
Proof.
  destruct s as [|a [|b [|c s]]]; try done. intros _. simpl. eauto.
Qed.

Lemma unpack2_Raise s :
  String.length s ≠ 2%nat → unpack2 s = Raise (ValueError_unpack 2 (String.length s)).
Proof. by destruct s as [|a [|b [|c s]]]. Qed.

Lemma kwargs_parts_names kwargs kwargs' :
  kwargs.*1 = kwargs'.*1 → kwargs_parts kwargs = kwargs_parts kwargs'.
Proof.
  revert kwargs'. induction kwargs as [|[name v] kwargs IH]; intros [|[name' v'] kwargs'];
    try done.
  intros [= -> Hrest]. cbn [kwargs_parts]. by rewrite (IH kwargs' Hrest).
Qed.

Lemma kwargs_parts_Ok kwargs :
  Forall (λ kv, String.length kv.1 = 2%nat) kwargs → ∃ parts, kwargs_parts kwargs = Ok parts.
Proof.
  induction 1 as [|[name v] kwargs Hlen _ [parts IH]]; [by exists []|].
  destruct (unpack2_Ok name Hlen) as (a & b & Hu). cbn [kwargs_parts].
  rewrite Hu, IH. eauto.
Qed.

Lemma kwargs_parts_Raise kwargs :
  ¬ Forall (λ kv, String.length kv.1 = 2%nat) kwargs →
  ∃ n, n ≠ 2%nat ∧ kwargs_parts kwargs = Raise (ValueError_unpack 2 n).
Proof.
  induction kwargs as [|[name v] kwargs IH]; intros Hnot.
  - destruct Hnot. constructor.
  - destruct (decide (String.length name = 2%nat)) as [Hlen|Hlen].
    + destruct IH as (n & Hn & Hr).
      { intros Hall. apply Hnot. by constructor. }
      exists n. split; [done|]. destruct (unpack2_Ok name Hlen) as (a & b & Hu).
      cbn [kwargs_parts]. by rewrite Hu, Hr.
    + exists (String.length name). split; [done|]. cbn [kwargs_parts].
      by rewrite (unpack2_Raise name Hlen).
Qed.

(** X11: the tracer's rendering of the arguments depends on the keyword
    names only, never on the keyword values; it succeeds exactly when
    every keyword name has two characters, and otherwise the wrapper
    raises ValueError with the heap untouched: nothing counted as depth,
    nothing printed, the function not called. *)
Theorem trace_keyword_names_only (tab : string) (decorator : nat) (func : function)
    (args : list Z) (kwargs kwargs' : list (string * Z)) (h : heap) :
  (kwargs.*1 = kwargs'.*1 → args_string args kwargs = args_string args kwargs')
  ∧ (Forall (λ kv, String.length kv.1 = 2%nat) kwargs →
     ∃ s, args_string args kwargs = Ok s)
  ∧ (¬ Forall (λ kv, String.length kv.1 = 2%nat) kwargs →
     ∃ n, n ≠ 2%nat
          ∧ trace_wrapper tab decorator func args kwargs h = (Raise (ValueError_unpack 2 n), h)).
Proof.
  split_and!.
  - intros Hnames. unfold args_string. by rewrite (kwargs_parts_names _ _ Hnames).
  - intros Hall. destruct (kwargs_parts_Ok kwargs Hall) as [parts Hp].
    unfold args_string. rewrite Hp. eauto.
  - intros Hnot. destruct (kwargs_parts_Raise kwargs Hnot) as (n & Hn & Hr).
    exists n. split; [done|]. unfold trace_wrapper, args_string. rewrite Hr.
    by apply bind_Raise.
Qed.

Lemma trace_keyword_names_only_witness :
  (args_string [1] [("ab", 5)] = args_string [1] [("ab", 7)])
  ∧ (∃ s, args_string [1] [("ab", 5)] = Ok s)
  ∧ (∃ n, n ≠ 2%nat
          ∧ trace_wrapper "####" fib_decorator (fib_inner 0) [1] [("abc", 5)] module_heap
            = (Raise (ValueError_unpack 2 n), module_heap)).
Proof.
  split_and!.
  - apply (trace_keyword_names_only "####" fib_decorator (fib_inner 0) [1]
             [("ab", 5)] [("ab", 7)] module_heap). reflexivity.
  - apply (trace_keyword_names_only "####" fib_decorator (fib_inner 0) [1]
             [("ab", 5)] [("ab", 5)] module_heap). repeat constructor.
  - apply (trace_keyword_names_only "####" fib_decorator (fib_inner 0) [1]
             [("abc", 5)] [] module_heap).
    intros Hall. inversion Hall as [|? ? Hlen _]. discriminate Hlen.
Defined.

(** ** foo and bar after any calls *)

Lemma fold_right1_foldr op unit x rest :
  (∀ a, op a unit = a) → fold_right1 op x rest = foldr op unit (x :: rest).
Proof.
  intros Hunit. revert x. induction rest as [|y rest IH]; intros x.
  - simpl. by rewrite Hunit.
  - cbn [fold_right1]. rewrite IH. reflexivity.
Qed.

Lemma foo_result_sum x rest : foo_result (x :: rest) [] = Ok (foldr Z.add 0 (x :: rest)).
Proof.
  unfold foo_result.
  rewrite (n_ary_fold_right (Function foo_raw foo_body) Z.add) by done.
  cbn [fst]. by rewrite (fold_right1_foldr Z.add 0) by (intros; lia).
Qed.

Lemma bar_result_product x rest : bar_result (x :: rest) [] = Ok (foldr Z.mul 1 (x :: rest)).
Proof.
  unfold bar_result, bar_nary_fn. cbn [f_call].
  rewrite (n_ary_fold_right (Function bar_raw bar_body) Z.mul) by done.
  cbn [fst]. by rewrite (fold_right1_foldr Z.mul 1) by (intros; lia).
Qed.

Lemma foo_cache_sound_insert m args kwargs v :
  foo_cache_sound m → foo_result args kwargs = Ok v →
  foo_cache_sound (<[memo_key foo_counted args kwargs := v]> m).
Proof.
  intros Hm Hv args' kwargs' v'.
  destruct (decide ((args', kwargs') = (args, kwargs))) as [[= -> ->]|Hne].
  - rewrite lookup_insert_eq. by intros [= <-].
  - rewrite lookup_insert_ne; [apply Hm|]. unfold memo_key. congruence.
Qed.

(** One call of [foo] in a good state: the outcome is that of n-ary
    addition, and the state stays good. *)
Lemma foo_call_result args kwargs h c m :
  foo_heap h c m → foo_cache_sound m →
  (f_call foo args kwargs h).1 = foo_result args kwargs
  ∧ ∃ c' m', foo_heap (f_call foo args kwargs h).2 c' m' ∧ foo_cache_sound m'.
Proof.
  intros Hh Hm. destruct (m !! memo_key foo_counted args kwargs) as [v|] eqn:Hk.
  - rewrite (foo_call_hit _ _ _ Hh _ _ _ Hk). split; [by rewrite (Hm _ _ _ Hk)|eauto].
  - destruct (foo_result args kwargs) as [v|e] eqn:Ho.
    + rewrite (foo_call_miss_Ok _ _ _ Hh _ _ _ Hk Ho). split; [done|].
      exists (c + 1), (<[memo_key foo_counted args kwargs := v]> m). split.
      * apply foo_heap_store, foo_heap_count, Hh.
      * by apply foo_cache_sound_insert.
    + rewrite (foo_call_miss_Raise _ _ _ Hh _ _ _ Hk Ho). split; [done|].
      exists (c + 1), m. split; [apply foo_heap_count, Hh|done].
Qed.

Lemma foo_history_good calls : ∀ h c m,
  foo_heap h c m → foo_cache_sound m →
  ∃ c' m', foo_heap (invoke_all foo calls h) c' m' ∧ foo_cache_sound m'.
Proof.
  induction calls as [|[args kwargs] calls IH]; intros h c m Hh Hm; [by exists c, m|].
  rewrite invoke_all_cons.
  destruct (foo_call_result args kwargs h c m Hh Hm) as (_ & c1 & m1 & Hh1 & Hm1).
  by eapply IH.
Qed.

(** X12: whatever calls of [foo] came before, cached or not, returning or
    raising, a call of [foo] has the outcome of n-ary addition on its
    arguments: with positional arguments it returns their sum, and the
    cache never serves a wrong or stale value. *)
Theorem foo_sums_after_any_calls (calls : list (list Z * list (string * Z)))
    (args : list Z) (kwargs : list (string * Z)) (x : Z) (rest : list Z) :
  (f_call foo args kwargs (invoke_all foo calls module_heap)).1 = foo_result args kwargs
  ∧ (f_call foo (x :: rest) [] (invoke_all foo calls module_heap)).1
    = Ok (foldr Z.add 0 (x :: rest)).
Proof.
  destruct (foo_history_good calls module_heap 0 ∅ module_foo_heap) as (c & m & Hh & Hm).
  { by intros ? ? ?. }
  split.
  - apply (foo_call_result args kwargs _ c m Hh Hm).
  - rewrite <- foo_result_sum. apply (foo_call_result (x :: rest) [] _ c m Hh Hm).
Qed.

(** What [foo.calls] is after calls that all return: the number of
    distinct argument lists. *)
Lemma foo_calls_distinct_from calls : ∀ h (seen : gset (list Z * list (string * Z))) m,
  foo_heap h (Z.of_nat (size seen)) m →
  attr_of foo_memo "calls" h = Some (AInt (Z.of_nat (size seen))) →
  (∀ args kwargs, is_Some (m !! memo_key foo_counted args kwargs) ↔ (args, kwargs) ∈ seen) →
  Forall (λ c, ∃ v, foo_result c.1 c.2 = Ok v) calls →
  attr_of foo_memo "calls" (invoke_all foo calls h)
    = Some (AInt (Z.of_nat (size (seen ∪ list_to_set calls)))).
Proof.
  induction calls as [|[args kwargs] calls IH]; intros h seen m Hh Hc Hseen Hall.
  - simpl. by rewrite (right_id_L ∅ (∪)).
  - apply Forall_cons in Hall as [[v Hv] Hall]. simpl in Hv.
    rewrite invoke_all_cons.
    replace (seen ∪ list_to_set ((args, kwargs) :: calls))
      with ((seen ∪ {[(args, kwargs)]}) ∪ list_to_set calls)
      by (by rewrite list_to_set_cons, (assoc_L (∪))).
    destruct (m !! memo_key foo_counted args kwargs) as [v'|] eqn:Hk.
    + (* hit: nothing changes *)
      rewrite (foo_call_hit _ _ _ Hh _ _ _ Hk). cbn [snd].
      assert (Hin : (args, kwargs) ∈ seen) by (apply Hseen; by rewrite Hk).
      replace (seen ∪ {[(args, kwargs)]}) with seen
        by (rewrite (comm_L (∪)); symmetry;
            apply subseteq_union_1_L; by apply singleton_subseteq_l).
      by apply (IH h seen m).
    + (* miss: one more distinct argument list *)
      rewrite (foo_call_miss_Ok _ _ _ Hh _ _ _ Hk Hv). cbn [snd].
      assert (Hnin : (args, kwargs) ∉ seen).
      { intros Hin. apply Hseen in Hin. rewrite Hk in Hin. by destruct Hin. }
      assert (Hsize : Z.of_nat (size seen) + 1
                      = Z.of_nat (size (seen ∪ {[(args, kwargs)]}))).
      { rewrite size_union by (by apply disjoint_singleton_r).
        rewrite size_singleton. lia. }
      pose proof (foo_heap_count _ _ _ Hh) as Hh1.
      apply (IH _ _ (<[memo_key foo_counted args kwargs := v]> m)); [| | |done].
      * rewrite <- Hsize. apply (foo_heap_store _ _ _ Hh1).
      * rewrite <- Hsize. apply (foo_calls_store _ _ _ Hh1).
      * intros args' kwargs'.
        destruct (decide ((args', kwargs') = (args, kwargs))) as [[= -> ->]|Hne].
        -- rewrite lookup_insert_eq, elem_of_union, elem_of_singleton. split; eauto.
        -- rewrite lookup_insert_ne by (unfold memo_key; congruence).
           rewrite Hseen, elem_of_union, elem_of_singleton. split; [eauto|].
           by intros [?|?].
Qed.

(** X13: after any calls of [foo] on the loaded module that all return,
    [foo.calls] is the number of distinct argument lists among them. *)
Theorem foo_calls_distinct (calls : list (list Z * list (string * Z))) :
  Forall (λ c, ∃ v, foo_result c.1 c.2 = Ok v) calls →
  attr_of (f_id foo) "calls" (invoke_all foo calls module_heap)
    = Some (AInt (Z.of_nat (size (list_to_set calls : gset (list Z * list (string * Z)))))).
Proof.
  intros Hall.
  rewrite <- (left_id_L ∅ (∪) (list_to_set calls)).
  apply (foo_calls_distinct_from calls module_heap ∅ ∅); [| | |done].
  - rewrite size_empty. apply module_foo_heap.
  - reflexivity.
  - intros args kwargs. rewrite lookup_empty, elem_of_empty. split; [by intros [? [=]]|done].
Qed.

(** The calls of [main], and one by keyword. *)
Lemma foo_calls_distinct_witness :
  attr_of (f_id foo) "calls"
    (invoke_all foo [([4; 3], []); ([4; 3; 2], []); ([4; 3], []); ([], [("x", 4)])] module_heap)
  = Some (AInt (Z.of_nat (size (list_to_set
       [([4; 3], []); ([4; 3; 2], []); ([4; 3], []); ([], [("x", 4)])]
       : gset (list Z * list (string * Z)))))).
Proof.
  apply foo_calls_distinct. repeat constructor; eexists; vm_compute; reflexivity.
Defined.

(** One call of [foo]: the inner counter grows by at most one, and
    [foo.calls] is either left alone or set to the inner counter. *)
Lemma foo_call_counters args kwargs h (inner outer : Z) m :
  foo_heap h inner m → attr_of foo_memo "calls" h = Some (AInt outer) →
  outer ≤ inner →
  ∃ inner' outer' m',
    foo_heap (f_call foo args kwargs h).2 inner' m'
    ∧ attr_of foo_memo "calls" (f_call foo args kwargs h).2 = Some (AInt outer')
    ∧ outer ≤ outer' ≤ inner' ∧ inner ≤ inner' ≤ inner + 1.
Proof.
  intros Hh Ho Hle. destruct (m !! memo_key foo_counted args kwargs) as [v|] eqn:Hk.
  - rewrite (foo_call_hit _ _ _ Hh _ _ _ Hk). exists inner, outer, m.
    split_and!; try done; lia.
  - pose proof (foo_heap_count _ _ _ Hh) as Hh1.
    destruct (foo_result args kwargs) as [v|e] eqn:Hr.
    + rewrite (foo_call_miss_Ok _ _ _ Hh _ _ _ Hk Hr). cbn [snd].
      exists (inner + 1), (inner + 1), (<[memo_key foo_counted args kwargs := v]> m).
      split_and!; try lia.
      * apply (foo_heap_store _ _ _ Hh1).
      * apply (foo_calls_store _ _ _ Hh1).
    + rewrite (foo_call_miss_Raise _ _ _ Hh _ _ _ Hk Hr). cbn [snd].
      exists (inner + 1), outer, m. split_and!; try lia; [exact Hh1|].
      by rewrite attr_of_setattr_ne by solve_ne.
Qed.

Lemma foo_counters_from calls : ∀ h (inner outer : Z) m,
  foo_heap h inner m → attr_of foo_memo "calls" h = Some (AInt outer) →
  outer ≤ inner →
  ∃ inner' outer',
    attr_of foo_count "calls" (invoke_all foo calls h) = Some (AInt inner')
    ∧ attr_of foo_memo "calls" (invoke_all foo calls h) = Some (AInt outer')
    ∧ outer ≤ outer' ≤ inner' ∧ inner' ≤ inner + Z.of_nat (length calls).
Proof.
  induction calls as [|[args kwargs] calls IH]; intros h inner outer m Hh Ho Hle.
  - exists inner, outer. simpl. split_and!; try done; try lia. apply Hh.
  - rewrite invoke_all_cons.
    destruct (foo_call_counters args kwargs h inner outer m Hh Ho Hle)
      as (inner1 & outer1 & m1 & Hh1 & Ho1 & Hle1 & Hin1).
    destruct (IH _ inner1 outer1 m1 Hh1 Ho1 ltac:(lia))
      as (inner' & outer' & Hi' & Ho' & Hle' & Hin').
    exists inner', outer'. split_and!; try done; try lia. cbn [length]. lia.
Qed.

(** X14: [foo.calls] is a copy, not the counter itself: after any calls
    of [foo] it never exceeds the [calls] of the counting wrapper beneath,
    which never exceeds the number of calls made; a call that raises is
    counted beneath but leaves [foo.calls] behind. *)
Theorem foo_calls_snapshot (calls : list (list Z * list (string * Z))) :
  ∃ inner outer : Z,
    attr_of foo_count "calls" (invoke_all foo calls module_heap) = Some (AInt inner)
    ∧ attr_of (f_id foo) "calls" (invoke_all foo calls module_heap) = Some (AInt outer)
    ∧ 0 ≤ outer ≤ inner ∧ inner ≤ Z.of_nat (length calls)
    ∧ attr_of foo_count "calls" (f_call foo [] [] module_heap).2 = Some (AInt 1)
    ∧ attr_of (f_id foo) "calls" (f_call foo [] [] module_heap).2 = Some (AInt 0).
Proof.
  destruct (foo_counters_from calls module_heap 0 0 ∅ module_foo_heap)
    as (inner & outer & Hi & Ho & Hle & Hin); [reflexivity|lia|].
  exists inner, outer. split_and!; try done; try lia; reflexivity.
Qed.

(** ** bar after any calls *)

Lemma bar_nary_fn_call args kwargs h :
  f_call bar_nary_fn args kwargs h = (bar_result args kwargs, h).
Proof.
  unfold bar_result, bar_nary_fn. cbn [f_call].
  apply (n_ary_wrapper_pure (Function bar_raw bar_body) bar_body_pure).
Qed.

Lemma module_bar_heap : bar_heap module_heap 0 ∅.
Proof. split; try reflexivity. vm_compute. eauto. Qed.

Lemma bar_heap_count h c m :
  bar_heap h c m → bar_heap (heap_setattr bar_count "calls" (AInt (c + 1)) h) (c + 1) m.
Proof.
  intros []. split; heap_obs; try done.
  apply attr_of_setattr_eq. eauto using attr_of_is_Some.
Qed.

Lemma bar_heap_store h c m k v :
  bar_heap h c m →
  bar_heap (heap_update_wrapper bar_memo bar_nary (heap_setitem bar_memo k v h))
    c (<[k := v]> m).
Proof.
  intros []. split; heap_obs; try done.
  - rewrite attr_of_update_wrapper_eq by (heap_obs; eauto using attr_of_is_Some).
    rewrite decide_False by done. heap_obs. by rewrite bh_nary_results0.
  - by apply dicts_setitem_eq.
Qed.

Lemma bar_cache_of self h c m :
  bar_heap h c m → self = bar_memo ∨ self = bar_count → cache_of self h = Some m.
Proof. intros [] [->| ->]; by eapply cache_of_eq. Qed.

(** One call of [bar] in a good state. *)
Lemma bar_call_result args kwargs h c m :
  bar_heap h c m →
  let h1 := heap_setattr bar_count "calls" (AInt (c + 1)) h in
  f_call bar args kwargs h =
    match m !! memo_key bar_nary_fn args kwargs with
    | Some v => (Ok v, h1)
    | None =>
        match bar_result args kwargs with
        | Ok v => (Ok v, heap_update_wrapper bar_memo bar_nary
                           (heap_setitem bar_memo (memo_key bar_nary_fn args kwargs) v h1))
        | Raise e => (Raise e, h1)
        end
    end.
Proof.
  intros Hh h1. pose proof (bar_heap_count _ _ _ Hh) as Hh1. fold h1 in Hh1.
  assert (Hc1 : cache_of bar_memo h1 = Some m) by (eapply bar_cache_of; eauto).
  unfold bar. cbn [f_call]. rewrite (countcalls_wrapper_eq _ _ _ _ c) by apply Hh.
  fold h1. cbn [f_call]. fold bar_nary_fn.
  destruct (m !! memo_key bar_nary_fn args kwargs) as [v|] eqn:Hk.
  - apply memo_wrapper_hit. by exists m.
  - destruct (bar_result args kwargs) as [v|e] eqn:Ho.
    + apply (memo_wrapper_miss_Ok _ bar_nary_fn _ _ _ _ Hc1 Hk _ _ bar_memo m);
        try apply Hh1.
      by rewrite bar_nary_fn_call, Ho.
    + apply (memo_wrapper_miss_Raise _ bar_nary_fn _ _ _ _ Hc1 Hk).
      by rewrite bar_nary_fn_call, Ho.
Qed.

Lemma bar_call_good args kwargs h c m seen :
  bar_heap h c m → bar_cache_exact m seen →
  (f_call bar args kwargs h).1 = bar_result args kwargs
  ∧ ∃ m', bar_heap (f_call bar args kwargs h).2 (c + 1) m'
          ∧ bar_cache_exact m' (seen ++ [(args, kwargs)]).
Proof.
  intros Hh Hm. rewrite (bar_call_result args kwargs h c m Hh).
  pose proof (bar_heap_count _ _ _ Hh) as Hh1.
  destruct (m !! memo_key bar_nary_fn args kwargs) as [v|] eqn:Hk.
  - apply Hm in Hk as [Hin Hv]. split; [done|]. exists m. split; [done|].
    intros a k w. rewrite (Hm a k w), elem_of_app, list_elem_of_singleton.
    split; [intros [? ?]; eauto|]. intros [[?|[= -> ->]] Hw]; [done|].
    split; [done|congruence].
  - destruct (bar_result args kwargs) as [v|e] eqn:Ho.
    + split; [done|]. exists (<[memo_key bar_nary_fn args kwargs := v]> m).
      split; [by apply bar_heap_store|].
      intros a k w. rewrite elem_of_app, list_elem_of_singleton.
      destruct (decide ((a, k) = (args, kwargs))) as [[= -> ->]|Hne].
      * rewrite lookup_insert_eq. rewrite Ho. split.
        -- intros [= <-]. eauto.
        -- by intros [_ [= <-]].
      * rewrite lookup_insert_ne by (unfold memo_key; congruence).
        rewrite (Hm a k w). split; [intros [? ?]; eauto|].
        by intros [[?|?] ?].
    + split; [done|]. exists m. split; [done|].
      intros a k w. rewrite (Hm a k w), elem_of_app, list_elem_of_singleton.
      split; [intros [? ?]; eauto|]. intros [[?|[= -> ->]] Hw]; [done|congruence].
Qed.

Lemma bar_history_good calls : ∀ h c m seen,
  bar_heap h c m → bar_cache_exact m seen →
  ∃ m', bar_heap (invoke_all bar calls h) (c + Z.of_nat (length calls)) m'
        ∧ bar_cache_exact m' (seen ++ calls).
Proof.
  induction calls as [|[args kwargs] calls IH]; intros h c m seen Hh Hm.
  - exists m. simpl. by rewrite Z.add_0_r, app_nil_r.
  - rewrite invoke_all_cons.
    destruct (bar_call_good args kwargs h c m seen Hh Hm) as (_ & m1 & Hh1 & Hm1).
    destruct (IH _ _ _ _ Hh1 Hm1) as (m' & Hh' & Hm'). exists m'.
    replace (c + Z.of_nat (length ((args, kwargs) :: calls)))
      with (c + 1 + Z.of_nat (length calls)) by (cbn [length]; lia).
    by rewrite (cons_middle _ seen calls), (assoc_L (++)).
Qed.

Lemma bar_cache_exact_empty : bar_cache_exact ∅ [].
Proof.
  intros args kwargs v. rewrite lookup_empty, elem_of_nil. split; [done|by intros []].
Qed.

(** X15: whatever calls of [bar] came before, a call of [bar] has the
    outcome of n-ary multiplication on its arguments: with positional
    arguments it returns their product. *)
Theorem bar_multiplies_after_any_calls (calls : list (list Z * list (string * Z)))
    (args : list Z) (kwargs : list (string * Z)) (x : Z) (rest : list Z) :
  (f_call bar args kwargs (invoke_all bar calls module_heap)).1 = bar_result args kwargs
  ∧ (f_call bar (x :: rest) [] (invoke_all bar calls module_heap)).1
    = Ok (foldr Z.mul 1 (x :: rest)).
Proof.
  destruct (bar_history_good calls module_heap 0 ∅ [] module_bar_heap bar_cache_exact_empty)
    as (m & Hh & Hm).
  split.
  - eapply bar_call_good; eauto.
  - rewrite <- bar_result_product. eapply bar_call_good; eauto.
Qed.

(** X16: [bar.results], an attribute of the counting wrapper that
    [update_wrapper] copied when the module was loaded, is the very
    dictionary the memo wrapper fills: after any calls of [bar] it holds
    exactly the calls made so far that returned, each with its result. *)
Theorem bar_results_is_the_cache (calls : list (list Z * list (string * Z))) :
  let h := invoke_all bar calls module_heap in
  cache_of (f_id bar) h = cache_of bar_memo h
  ∧ ∃ m, cache_of (f_id bar) h = Some m
         ∧ ∀ args kwargs v,
             m !! memo_key bar_nary_fn args kwargs = Some v
             ↔ (args, kwargs) ∈ calls ∧ bar_result args kwargs = Ok v.
Proof.
  intros h.
  destruct (bar_history_good calls module_heap 0 ∅ [] module_bar_heap bar_cache_exact_empty)
    as (m & Hh & Hm). fold h in Hh.
  rewrite (bar_cache_of (f_id bar) h _ m Hh) by (right; reflexivity).
  rewrite (bar_cache_of bar_memo h _ m Hh) by (by left).
  split; [done|]. by exists m.
Qed.

(** ** Decoration *)

Lemma new_function_eq f name doc h :
  new_function f name doc h = (Ok tt, heap_new_function f name doc h).
Proof. reflexivity. Qed.

Lemma funcs_new_function f name doc h :
  funcs (heap_new_function f name doc h) = <[f := FunObj name doc ∅]> (funcs h).
Proof. reflexivity. Qed.

Lemma new_dict_eq d h : new_dict d h = (Ok tt, heap_new_dict d h).
Proof. reflexivity. Qed.

Lemma funcs_update_wrapper w f h o1 o2 :
  funcs h !! w = Some o1 → funcs h !! f = Some o2 →
  funcs (heap_update_wrapper w f h)
  = <[w := FunObj (fn_name o2) (fn_doc o2)
             (<["__wrapped__" := AFunc f]> (fn_dict o2 ∪ fn_dict o1))]> (funcs h).
Proof. unfold heap_update_wrapper, update_wrapper. by intros -> ->. Qed.

(** [update_wrapper] on a wrapper made after the function it wraps. *)
Lemma update_wrapper_inherits self f h h1 o :
  self ≠ f → funcs h !! f = Some o →
  is_Some (funcs h1 !! self) →
  (∀ g, g ≠ self → funcs h1 !! g = funcs h !! g) →
  out h1 = out h →
  update_wrapper self f h1 = (Ok self, heap_update_wrapper self f h1)
  ∧ inherits self f h (heap_update_wrapper self f h1)
  ∧ (∀ n, n ≠ "__wrapped__" → attr_of f n h = None →
       attr_of self n (heap_update_wrapper self f h1) = attr_of self n h1)
  ∧ dicts (heap_update_wrapper self f h1) = dicts h1.
Proof.
  intros Hne Hf [o1 Hs] Hsame Hout.
  assert (Hf1 : funcs h1 !! f = Some o) by (by rewrite Hsame).
  assert (Hn1 : is_Some (name_of self h1)) by (unfold name_of; rewrite Hs; eauto).
  assert (Hn2 : is_Some (name_of f h1)) by (unfold name_of; rewrite Hf1; eauto).
  assert (Hattr : ∀ n, n ≠ "__wrapped__" →
            attr_of self n (heap_update_wrapper self f h1)
            = match attr_of f n h with Some a => Some a | None => attr_of self n h1 end).
  { intros n Hn. rewrite attr_of_update_wrapper_eq by done. rewrite decide_False by done.
    unfold attr_of at 1. unfold attr_of at 2. by rewrite Hf1, Hf. }
  split_and!.
  - by apply update_wrapper_eq.
  - unfold inherits. split_and!.
    + rewrite name_of_update_wrapper_eq by done. unfold name_of. by rewrite Hf1, Hf.
    + unfold doc_of. rewrite (funcs_update_wrapper _ _ _ _ _ Hs Hf1), lookup_insert_eq.
      by rewrite Hf.
    + rewrite attr_of_update_wrapper_eq by done. by rewrite decide_True.
    + intros n a Hn Ha. by rewrite Hattr, Ha.
    + intros g Hg. rewrite (funcs_update_wrapper _ _ _ _ _ Hs Hf1).
      rewrite lookup_insert_ne by done. by apply Hsame.
    + by rewrite out_update_wrapper.
  - intros n Hn Ha. by rewrite Hattr, Ha.
  - apply dicts_update_wrapper.
Qed.

Lemma setattr_funcs f name a h o :
  funcs h !! f = Some o →
  funcs (heap_setattr f name a h)
  = <[f := FunObj (fn_name o) (fn_doc o) (<[name := a]> (fn_dict o))]> (funcs h).
Proof. unfold heap_setattr, setattr. by intros ->. Qed.

Section decoration.
Context (self : nat) (func : function) (h : heap) (o : funobj).
Hypothesis Hfresh : self ≠ f_id func.
Hypothesis Hfunc : funcs h !! f_id func = Some o.

(** The heap once [def wrapper] has made the wrapper object. *)
Lemma new_wrapper_obs :
  let h0 := heap_new_function self "wrapper" None h in
  funcs h0 !! self = Some (FunObj "wrapper" None ∅)
  ∧ (∀ g, g ≠ self → funcs h0 !! g = funcs h !! g)
  ∧ dicts h0 = dicts h ∧ out h0 = out h.
Proof.
  intros h0. unfold h0. rewrite funcs_new_function. split_and!; try done.
  - by rewrite lookup_insert_eq.
  - intros g Hg. by rewrite lookup_insert_ne.
Qed.

Lemma n_ary_decorates :
  ∃ h', n_ary self func h = (Ok (Function self (n_ary_wrapper func)), h')
        ∧ inherits self (f_id func) h h' ∧ dicts h' = dicts h.
Proof.
  pose proof new_wrapper_obs as Hobs.
  set (h0 := heap_new_function self "wrapper" None h) in *.
  destruct Hobs as (Hs & Hsame & Hd & Hout).
  destruct (update_wrapper_inherits self (f_id func) h h0 o Hfresh Hfunc)
    as (Hupd & Hinh & _ & Hdicts); [by rewrite Hs|done|done|].
  exists (heap_update_wrapper self (f_id func) h0). split_and!; [|done|congruence].
  unfold n_ary. rewrite (bind_Ok _ _ _ _ _ (new_function_eq _ _ _ _)).
  fold h0. by rewrite (bind_Ok _ _ _ _ _ Hupd).
Qed.

Lemma trace_decorates tab decorator :
  ∃ h', trace_decorator tab decorator self func h
          = (Ok (Function self (trace_wrapper tab decorator func)), h')
        ∧ inherits self (f_id func) h h' ∧ dicts h' = dicts h.
Proof.
  pose proof new_wrapper_obs as Hobs.
  set (h0 := heap_new_function self "wrapper" None h) in *.
  destruct Hobs as (Hs & Hsame & Hd & Hout).
  destruct (update_wrapper_inherits self (f_id func) h h0 o Hfresh Hfunc)
    as (Hupd & Hinh & _ & Hdicts); [by rewrite Hs|done|done|].
  exists (heap_update_wrapper self (f_id func) h0). split_and!; [|done|congruence].
  unfold trace_decorator. rewrite (bind_Ok _ _ _ _ _ (new_function_eq _ _ _ _)).
  fold h0. by rewrite (bind_Ok _ _ _ _ _ Hupd).
Qed.

Lemma countcalls_decorates :
  ∃ h', countcalls self func h = (Ok (Function self (countcalls_wrapper self func)), h')
        ∧ inherits self (f_id func) h h' ∧ dicts h' = dicts h
        ∧ attr_of self "calls" h'
          = Some (default (AInt 0) (attr_of (f_id func) "calls" h)).
Proof.
  pose proof new_wrapper_obs as Hobs.
  set (h0 := heap_new_function self "wrapper" None h) in *.
  destruct Hobs as (Hs & Hsame & Hd & Hout).
  set (h1 := heap_setattr self "calls" (AInt 0) h0).
  assert (Hn0 : is_Some (name_of self h0)) by (unfold name_of; rewrite Hs; eauto).
  assert (Hf1 : funcs h1 = <[self := FunObj "wrapper" None (<["calls" := AInt 0]> ∅)]> (funcs h0))
    by (unfold h1; by rewrite (setattr_funcs _ _ _ _ _ Hs)).
  destruct (update_wrapper_inherits self (f_id func) h h1 o Hfresh Hfunc)
    as (Hupd & Hinh & Hkeep & Hdicts).
  { rewrite Hf1, lookup_insert_eq. eauto. }
  { intros g Hg. rewrite Hf1, lookup_insert_ne by done. by apply Hsame. }
  { unfold h1. by rewrite out_setattr. }
  exists (heap_update_wrapper self (f_id func) h1). split_and!; [|done| |].
  - unfold countcalls. rewrite (bind_Ok _ _ _ _ _ (new_function_eq _ _ _ _)). fold h0.
    rewrite (bind_Ok _ _ _ _ _ (setattr_eq _ _ _ _ Hn0)). fold h1.
    by rewrite (bind_Ok _ _ _ _ _ Hupd).
  - rewrite Hdicts. unfold h1. by rewrite dicts_setattr.
  - destruct (attr_of (f_id func) "calls" h) as [a|] eqn:Ha.
    + destruct Hinh as (_ & _ & _ & Hcopy & _). by apply Hcopy.
    + rewrite Hkeep by done. unfold h1. by apply attr_of_setattr_eq.
Qed.

Lemma memo_decorates :
  ∃ h', memo self func h = (Ok (Function self (memo_wrapper self func)), h')
        ∧ inherits self (f_id func) h h'
        ∧ dicts h' = <[self := ∅]> (dicts h)
        ∧ attr_of self "results" h'
          = Some (default (ADict self) (attr_of (f_id func) "results" h)).
Proof.
  pose proof new_wrapper_obs as Hobs.
  set (h0 := heap_new_function self "wrapper" None h) in *.
  destruct Hobs as (Hs & Hsame & Hd & Hout).
  set (h1 := heap_new_dict self h0).
  set (h2 := heap_setattr self "results" (ADict self) h1).
  assert (Hs1 : funcs h1 !! self = Some (FunObj "wrapper" None ∅)) by exact Hs.
  assert (Hn1 : is_Some (name_of self h1)) by (unfold name_of; rewrite Hs1; eauto).
  assert (Hf2 : funcs h2
                = <[self := FunObj "wrapper" None (<["results" := ADict self]> ∅)]> (funcs h1))
    by (unfold h2; by rewrite (setattr_funcs _ _ _ _ _ Hs1)).
  destruct (update_wrapper_inherits self (f_id func) h h2 o Hfresh Hfunc)
    as (Hupd & Hinh & Hkeep & Hdicts).
  { rewrite Hf2, lookup_insert_eq. eauto. }
  { intros g Hg. rewrite Hf2, lookup_insert_ne by done. by apply Hsame. }
  { unfold h2. by rewrite out_setattr. }
  exists (heap_update_wrapper self (f_id func) h2). split_and!; [|done| |].
  - unfold memo. rewrite (bind_Ok _ _ _ _ _ (new_function_eq _ _ _ _)). fold h0.
    rewrite (bind_Ok _ _ _ _ _ (new_dict_eq _ _)). fold h1.
    rewrite (bind_Ok _ _ _ _ _ (setattr_eq _ _ _ _ Hn1)). fold h2.
    by rewrite (bind_Ok _ _ _ _ _ Hupd).
  - rewrite Hdicts. unfold h2. rewrite dicts_setattr.
    change (dicts h1) with (<[self := ∅]> (dicts h0)). by rewrite Hd.
  - destruct (attr_of (f_id func) "results" h) as [a|] eqn:Ha.
    + destruct Hinh as (_ & _ & _ & Hcopy & _). by apply Hcopy.
    + rewrite Hkeep by done. unfold h2. by apply attr_of_setattr_eq.
Qed.
End decoration.

(** X5: each of the four decorators, applied to a function whose object
    exists, makes a wrapper object that presents the function's name and
    docstring, carries its attributes and points back to it through
    [__wrapped__]; no other object and no output is touched. *)
Theorem decorators_copy_metadata (self : nat) (func : function) (h : heap) (o : funobj)
    (tab : string) (decorator : nat) :
  self ≠ f_id func → funcs h !! f_id func = Some o →
  (∃ h', countcalls self func h = (Ok (Function self (countcalls_wrapper self func)), h')
         ∧ inherits self (f_id func) h h')
  ∧ (∃ h', n_ary self func h = (Ok (Function self (n_ary_wrapper func)), h')
           ∧ inherits self (f_id func) h h')
  ∧ (∃ h', memo self func h = (Ok (Function self (memo_wrapper self func)), h')
           ∧ inherits self (f_id func) h h')
  ∧ (∃ h', trace_decorator tab decorator self func h
             = (Ok (Function self (trace_wrapper tab decorator func)), h')
           ∧ inherits self (f_id func) h h').
Proof.
  intros Hne Hf. split_and!.
  - destruct (countcalls_decorates self func h o Hne Hf) as (h' & ? & ? & _). eauto.
  - destruct (n_ary_decorates self func h o Hne Hf) as (h' & ? & ? & _). eauto.
  - destruct (memo_decorates self func h o Hne Hf) as (h' & ? & ? & _). eauto.
  - destruct (trace_decorates self func h o Hne Hf tab decorator) as (h' & ? & ? & _). eauto.
Qed.

Lemma module_bar_object :
  ∃ o, funcs module_heap !! f_id bar = Some o ∧ fn_name o = "bar".
Proof. vm_compute. eauto. Qed.

Lemma decorators_copy_metadata_witness :
  (∃ h', countcalls 20 bar module_heap = (Ok (Function 20 (countcalls_wrapper 20 bar)), h')
         ∧ inherits 20 (f_id bar) module_heap h')
  ∧ (∃ h', n_ary 20 bar module_heap = (Ok (Function 20 (n_ary_wrapper bar)), h')
           ∧ inherits 20 (f_id bar) module_heap h')
  ∧ (∃ h', memo 20 bar module_heap = (Ok (Function 20 (memo_wrapper 20 bar)), h')
           ∧ inherits 20 (f_id bar) module_heap h')
  ∧ (∃ h', trace_decorator "____" 21 20 bar module_heap
             = (Ok (Function 20 (trace_wrapper "____" 21 bar)), h')
           ∧ inherits 20 (f_id bar) module_heap h').
Proof.
  destruct module_bar_object as (o & Ho & _).
  apply (decorators_copy_metadata 20 bar module_heap o "____" 21); [discriminate|exact Ho].
Defined.

(** X4: the wrapper [countcalls] makes does not always start at zero:
    [wrapper.calls = 0] is set before [update_wrapper] copies the
    function's attributes, so a function that itself carries [calls]
    hands its current count to the new wrapper. *)
Theorem countcalls_initial_count (self : nat) (func : function) (h : heap) (o : funobj) :
  self ≠ f_id func → funcs h !! f_id func = Some o →
  ∃ h', countcalls self func h = (Ok (Function self (countcalls_wrapper self func)), h')
        ∧ attr_of self "calls" h' = Some (default (AInt 0) (attr_of (f_id func) "calls" h))
        ∧ dicts h' = dicts h ∧ out h' = out h.
Proof.
  intros Hne Hf.
  destruct (countcalls_decorates self func h o Hne Hf) as (h' & Hc & Hinh & Hd & Hcalls).
  exists h'. split_and!; try done. apply Hinh.
Qed.

(** Counting [bar] again after the three calls of [main] starts at 3;
    counting [bar]'s n-ary wrapper, which has no counter, starts at 0. *)
Lemma countcalls_initial_count_witness :
  let h := invoke_all bar [([4; 3], []); ([4; 3; 2], []); ([4; 3; 2; 1], [])] module_heap in
  (∃ h', countcalls 20 bar h = (Ok (Function 20 (countcalls_wrapper 20 bar)), h')
         ∧ attr_of 20%nat "calls" h' = Some (AInt 3)
         ∧ dicts h' = dicts h ∧ out h' = out h)
  ∧ (∃ h', countcalls 20 bar_nary_fn h
             = (Ok (Function 20 (countcalls_wrapper 20 bar_nary_fn)), h')
           ∧ attr_of 20%nat "calls" h' = Some (AInt 0)
           ∧ dicts h' = dicts h ∧ out h' = out h).
Proof.
  intros h.
  assert (∃ o, funcs h !! f_id bar = Some o) as [o Ho] by (vm_compute; eauto).
  assert (∃ o, funcs h !! f_id bar_nary_fn = Some o) as [o' Ho'] by (vm_compute; eauto).
  split.
  - destruct (countcalls_initial_count 20 bar h o ltac:(discriminate) Ho)
      as (h' & Hc & Hcalls & Hd & Hout).
    exists h'. split_and!; [exact Hc| |exact Hd|exact Hout].
    rewrite Hcalls. vm_compute. reflexivity.
  - destruct (countcalls_initial_count 20 bar_nary_fn h o' ltac:(discriminate) Ho')
      as (h' & Hc & Hcalls & Hd & Hout).
    exists h'. split_and!; [exact Hc| |exact Hd|exact Hout].
    rewrite Hcalls. vm_compute. reflexivity.
Defined.

(** X8: the wrapper [memo] makes does not always get the fresh cache:
    [wrapper.results = {}] is set before [update_wrapper] copies the
    function's attributes, so memoizing a function that itself carries
    [results] makes the new wrapper use that function's dictionary, with
    whatever it already holds, and leaves the fresh one unused. *)
Theorem memo_initial_cache (self : nat) (func : function) (h : heap) (o : funobj) :
  self ≠ f_id func → funcs h !! f_id func = Some o →
  ∃ h', memo self func h = (Ok (Function self (memo_wrapper self func)), h')
        ∧ attr_of self "results" h'
          = Some (default (ADict self) (attr_of (f_id func) "results" h))
        ∧ dicts h' = <[self := ∅]> (dicts h)
        ∧ (attr_of (f_id func) "results" h = None → cache_of self h' = Some ∅)
        ∧ (∀ d, attr_of (f_id func) "results" h = Some (ADict d) → d ≠ self →
             cache_of self h' = cache_of (f_id func) h).
Proof.
  intros Hne Hf.
  destruct (memo_decorates self func h o Hne Hf) as (h' & Hc & Hinh & Hd & Hres).
  exists h'. split_and!; try done.
  - intros Hnone. unfold cache_of. rewrite Hres, Hnone. simpl.
    by rewrite Hd, lookup_insert_eq.
  - intros d Hsome Hds. unfold cache_of. rewrite Hres, Hsome. simpl.
    by rewrite Hd, lookup_insert_ne.
Qed.

(** Memoizing [bar] after [bar(4,3)] starts with [bar]'s cache, which
    holds that call. *)
Lemma memo_initial_cache_witness :
  let h := (f_call bar [4; 3] [] module_heap).2 in
  ∃ h', memo 20 bar h = (Ok (Function 20 (memo_wrapper 20 bar)), h')
        ∧ attr_of 20%nat "results" h' = Some (ADict bar_memo)
        ∧ cache_of 20%nat h' = cache_of (f_id bar) h
        ∧ cache_of (f_id bar) h ≫= (.!! memo_key bar_nary_fn [4; 3] []) = Some 12.
Proof.
  intros h.
  assert (∃ o, funcs h !! f_id bar = Some o) as [o Ho] by (vm_compute; eauto).
  destruct (memo_initial_cache 20 bar h o ltac:(discriminate) Ho)
    as (h' & Hc & Hres & Hd & _ & Hshare).
  exists h'. split_and!; [exact Hc| | |].
  - rewrite Hres. vm_compute. reflexivity.
  - apply (Hshare bar_memo); [vm_compute; reflexivity|discriminate].
  - vm_compute. reflexivity.
Defined.



(** ** The counter, whatever it wraps *)

(** X3: the counting wrapper adds one to its own [calls] and then does
    exactly what the wrapped function does on that heap, returning or
    raising the same; the call is counted before the function runs, so it
    is counted even when the function raises.  Without a [calls]
    attribute the wrapper raises AttributeError and calls nothing. *)
Theorem countcalls_counts_attempts (self : nat) (func : function)
    (args : list Z) (kwargs : list (string * Z)) (h : heap) :
  (∀ c : Z, attr_of self "calls" h = Some (AInt c) →
     countcalls_wrapper self func args kwargs h
       = f_call func args kwargs (heap_setattr self "calls" (AInt (c + 1)) h)
     ∧ (keeps (attr_of self "calls") (f_call func args kwargs) →
        attr_of self "calls" (countcalls_wrapper self func args kwargs h).2
          = Some (AInt (c + 1))))
  ∧ (attr_of self "calls" h = None →
     countcalls_wrapper self func args kwargs h = (Raise (AttributeError "calls"), h)).
Proof.
  split.
  - intros c Hc. rewrite (countcalls_wrapper_eq _ _ _ _ c) by done. split; [done|].
    intros Hk.
    destruct (f_call func args kwargs (heap_setattr self "calls" (AInt (c + 1)) h))
      as [o h'] eqn:E.
    cbn [snd]. rewrite (Hk _ _ _ E). apply attr_of_setattr_eq. eauto using attr_of_is_Some.
  - intros Hnone. unfold countcalls_wrapper.
    apply bind_Raise. apply bind_Raise. by rewrite getattr_attr_of, Hnone.
Qed.

(** [bar]'s n-ary wrapper called without arguments under [foo]'s counter:
    the call raises and is counted; under an object without [calls]
    nothing is called. *)
Lemma countcalls_counts_attempts_witness :
  (countcalls_wrapper foo_count bar_nary_fn [] [] module_heap
     = f_call bar_nary_fn [] [] (heap_setattr foo_count "calls" (AInt (0 + 1)) module_heap)
   ∧ attr_of foo_count "calls" (countcalls_wrapper foo_count bar_nary_fn [] [] module_heap).2
     = Some (AInt (0 + 1)))
  ∧ countcalls_wrapper foo_raw bar_nary_fn [] [] module_heap
    = (Raise (AttributeError "calls"), module_heap).
Proof.
  destruct (countcalls_counts_attempts foo_count bar_nary_fn [] [] module_heap) as [Hcnt _].
  destruct (countcalls_counts_attempts foo_raw bar_nary_fn [] [] module_heap) as [_ Hnone].
  destruct (Hcnt 0 eq_refl) as [Heq Hkeeps].
  split; [split; [exact Heq|]|].
  - apply Hkeeps. intros h o h'. rewrite bar_nary_fn_call. by intros [= _ <-].
  - apply Hnone. reflexivity.
Defined.

(** ** memo when the function raises *)

(** X7: when the wrapped function raises on a cache miss, [memo]'s
    wrapper passes the exception on with the heap exactly as the function
    left it: nothing is stored, and [update_wrapper] is not run.  So the
    same call made again, the cache being as it was, runs the function
    again and raises whatever it raises then. *)
Theorem memo_raise_not_cached (self : nat) (func : function)
    (args : list Z) (kwargs : list (string * Z)) (h : heap)
    (m : gmap (nat * list Z * list (string * Z)) Z) (e : exn) (h1 : heap) :
  cache_of self h = Some m → m !! memo_key func args kwargs = None →
  f_call func args kwargs h = (Raise e, h1) →
  memo_wrapper self func args kwargs h = (Raise e, h1)
  ∧ (cache_of self h1 = Some m →
     ∀ e' h2, f_call func args kwargs h1 = (Raise e', h2) →
              memo_wrapper self func args kwargs h1 = (Raise e', h2)).
Proof.
  intros Hc Hk Hf. split.
  - by apply (memo_wrapper_miss_Raise _ _ _ _ _ _ Hc Hk).
  - intros Hc1 e' h2 Hf1. by apply (memo_wrapper_miss_Raise _ _ _ _ _ _ Hc1 Hk).
Qed.

(** [foo()] twice: the counting wrapper beneath runs twice. *)
Lemma memo_raise_not_cached_witness :
  let h1 := heap_setattr foo_count "calls" (AInt 1) module_heap in
  let h2 := heap_setattr foo_count "calls" (AInt 2) h1 in
  memo_wrapper foo_memo foo_counted [] [] module_heap
    = (Raise (TypeError_missing_argument "x"), h1)
  ∧ memo_wrapper foo_memo foo_counted [] [] h1
    = (Raise (TypeError_missing_argument "x"), h2).
Proof.
  intros h1 h2.
  destruct (memo_raise_not_cached foo_memo foo_counted [] [] module_heap ∅
              (TypeError_missing_argument "x") h1) as [Hfirst Hagain];
    [reflexivity|reflexivity|vm_compute; reflexivity|].
  split; [exact Hfirst|].
  apply Hagain; [reflexivity|vm_compute; reflexivity].
Defined.

(** ** n_ary folds from the right *)

Lemma n_ary_fold_innermost func y z e h h1 :
  f_call func [y; z] [] h = (Raise e, h1) →
  ∀ pre x, n_ary_fold func x (pre ++ [y; z]) h = (Raise e, h1).
Proof.
  intros Hf pre. induction pre as [|p pre IH]; intros x.
  - cbn [app n_ary_fold]. apply bind_Raise.
    by rewrite (bind_Ok _ _ h z h) by reflexivity.
  - cbn [app n_ary_fold]. apply bind_Raise. apply IH.
Qed.

(** X6: the wrapper made by [n_ary] combines the last two arguments
    first: when the wrapped function raises on them, the wrapper raises
    the same with the heap as that one call left it, and the function is
    applied to no other pair, however many arguments come before. *)
Theorem n_ary_innermost_first (func : function) (x : Z) (pre : list Z) (y z : Z)
    (e : exn) (h h1 : heap) :
  f_call func [y; z] [] h = (Raise e, h1) →
  n_ary_wrapper func (x :: pre ++ [y; z]) [] h = (Raise e, h1).
Proof.
  intros Hf. rewrite n_ary_wrapper_positional. by apply n_ary_fold_innermost.
Qed.

(** The body of [fib] takes one argument and raises on two. *)
Lemma n_ary_innermost_first_witness :
  n_ary_wrapper (fib_inner 0) (1 :: [2; 3] ++ [4; 5]) [] module_heap
  = (Raise TypeError_too_many_positional, module_heap).
Proof. apply n_ary_innermost_first. reflexivity. Defined.

(** ** main *)

Lemma main_extends fuel extra : extends (main fuel) (main (extra + fuel)).
Proof.
  pose proof (fib_fuel_mono fuel extra) as Hf.
  unfold main. rewrite !f_id_fib. extends_tac Hf.
Qed.

Lemma main_run : main 6 module_heap = (Ok tt, main_heap).
Proof. vm_compute. reflexivity. Qed.

(** X22: [main()] on the freshly loaded module runs to its end without
    raising and prints these 28 texts in this order: the results of [foo]
    and the count 2, the results of [bar] and the count 3, the docstring
    of [fib], the eighteen trace lines of [fib(5)] and the count 9. *)
Theorem main_prints (extra : nat) :
  (main (extra + 6) module_heap).1 = Ok tt
  ∧ out (main (extra + 6) module_heap).2 =
      [ "7"; "9"; "7"; "foo was called 2 times";
        "12"; "24"; "24"; "bar was called 3 times";
        fib_doc;
        "#### --> fib (5)";
        "######## --> fib (4)";
        "############ --> fib (3)";
        "################ --> fib (2)";
        "#################### --> fib (1)";
        "#################### <-- fib (1) == 1";
        "#################### --> fib (0)";
        "#################### <-- fib (0) == 1";
        "################ <-- fib (2) == 2";
        "################ --> fib (1)";
        "################ <-- fib (1) == 1";
        "############ <-- fib (3) == 3";
        "############ --> fib (2)";
        "############ <-- fib (2) == 2";
        "######## <-- fib (4) == 5";
        "######## --> fib (3)";
        "######## <-- fib (3) == 3";
        "#### <-- fib (5) == 8";
        "9 calls made" ].
Proof.
  rewrite (main_extends 6 extra _ _ _ main_run) by done. cbn [fst snd].
  split; [reflexivity|]. unfold main_heap. apply main_output.
Qed.

(** ** fib with memoization turned off *)

Lemma load_fib_plain_returns fuel :
  (load_fib_plain (fib_plain fuel) ((load_foo;; load_bar) empty_heap).2).1
  = Ok (fib_plain (S fuel)).
Proof. reflexivity. Qed.

Lemma module_plain_fib_heap : plain_fib_heap plain_heap 0 0.
Proof. split; reflexivity. Qed.

Lemma plain_fib_heap_count h c d c' :
  plain_fib_heap h c d →
  plain_fib_heap (heap_setattr fib_count "calls" (AInt c') h) c' d.
Proof.
  intros []. split; heap_obs; try done.
  apply attr_of_setattr_eq. eauto using attr_of_is_Some.
Qed.

Lemma plain_fib_heap_enter h c d s :
  plain_fib_heap h c d →
  plain_fib_heap (fib_entered s c d h) (c + 1) (d + 1).
Proof.
  intros Hh. destruct (plain_fib_heap_count h c d (c + 1) Hh).
  unfold fib_entered, trace_enter. split; heap_obs; try done.
  - apply attr_of_setattr_eq. eauto using attr_of_is_Some.
  - apply Hh.
Qed.

Lemma plain_fib_heap_leave h c d s v :
  plain_fib_heap h c (d + 1) →
  plain_fib_heap (trace_leave "####" fib_decorator (d + 1) "fib" s v h) c d.
Proof.
  intros []. unfold trace_leave. split; heap_obs; try done.
  replace (Some (AInt d)) with (Some (AInt (d + 1 - 1))) by (do 2 f_equal; lia).
  apply attr_of_setattr_eq. heap_obs. eauto using attr_of_is_Some.
Qed.

Lemma fib_value_pos n : 1 ≤ fib_value n.
Proof.
  unfold fib_value. generalize (Z.to_nat n). intros k.
  assert (1 ≤ fib_spec k ∧ 1 ≤ fib_spec (S k)) as [? _]; [|done].
  induction k as [|k [IH1 IH2]]; [done|]. split; [done|].
  change (fib_spec (S (S k))) with (fib_spec (S k) + fib_spec k). lia.
Qed.

(** X1: with [memo = disable] in place, [fib(n)] still returns the
    Fibonacci number of [n], but every call runs the body: a call makes
    [2 * fib(n) - 1] counted calls, writes twice as many trace lines and
    touches no dictionary. *)
Theorem fib_without_memo (fuel : nat) : ∀ (n : Z) (h : heap) (c d : Z),
  plain_fib_heap h c d → (Z.to_nat n < fuel)%nat →
  ∃ h', f_call (fib_plain fuel) [n] [] h = (Ok (fib_value n), h')
        ∧ plain_fib_heap h' (c + (2 * fib_value n - 1)) d
        ∧ Z.of_nat (length (out h'))
          = Z.of_nat (length (out h)) + 2 * (2 * fib_value n - 1)
        ∧ dicts h' = dicts h.
Proof.
  induction fuel as [|fuel IH]; intros n h c d Hh Hfuel; [lia|].
  simpl fib_plain. cbn [f_call].
  rewrite (countcalls_wrapper_eq _ _ _ _ c) by apply Hh.
  pose proof (plain_fib_heap_count _ _ _ (c + 1) Hh) as Hh1.
  pose proof (plain_fib_heap_enter _ _ _ (str n) Hh) as Hh2.
  assert (Hout2 : out (fib_entered (str n) c d h)
                  = out h ++ [entry_line "####" (d + 1) "fib" (str n)])
    by (unfold fib_entered, trace_enter; by heap_obs).
  assert (Hd2 : dicts (fib_entered (str n) c d h) = dicts h)
    by (unfold fib_entered, trace_enter; by heap_obs).
  set (h2 := fib_entered (str n) c d h) in *.
  assert (∃ hb, fib_body (fib_plain fuel) [n] [] h2 = (Ok (fib_value n), hb)
    ∧ plain_fib_heap hb (c + (2 * fib_value n - 1)) (d + 1)
    ∧ Z.of_nat (length (out hb))
      = Z.of_nat (length (out h2)) + 2 * (2 * fib_value n - 2)
    ∧ dicts hb = dicts h2) as (hb & Hbody & Hhb & Hlen & Hdb).
  { destruct (decide (n ≤ 1)) as [Hn|Hn].
    - exists h2. rewrite (fib_body_base _ n _ Hn), (fib_value_base n Hn).
      split_and!; [done| |lia|done].
      by replace (c + (2 * 1 - 1)) with (c + 1) by lia.
    - destruct (IH (n - 1) h2 _ _ Hh2 ltac:(lia)) as (ha & Ha & Hha & Hlena & Hda).
      destruct (IH (n - 2) ha _ _ Hha ltac:(lia)) as (hb & Hb & Hhb & Hlenb & Hdb).
      exists hb. rewrite (fib_body_step _ n _ Hn).
      rewrite (bind_Ok _ _ _ _ _ Ha), (bind_Ok _ _ _ _ _ Hb).
      rewrite (fib_value_step n Hn). split_and!; [done| |lia|congruence].
      replace (c + (2 * (fib_value (n - 1) + fib_value (n - 2)) - 1))
        with (c + 1 + (2 * fib_value (n - 1) - 1) + (2 * fib_value (n - 2) - 1)) by lia.
      exact Hhb. }
  exists (trace_leave "####" fib_decorator (d + 1) "fib" (str n) (fib_value n) hb).
  split_and!.
  - eapply (trace_wrapper_Ok "####" fib_decorator (Function fib_raw (fib_body (fib_plain fuel)))
              [n] [] (str n) "fib" d _ (args_string_one n)); try apply Hh1; try apply Hhb.
    exact Hbody.
  - by apply plain_fib_heap_leave.
  - unfold trace_leave. heap_obs. rewrite length_app. rewrite Hout2, length_app in Hlen.
    cbn [length] in *. lia.
  - unfold trace_leave. heap_obs. congruence.
Qed.

Lemma fib_without_memo_witness :
  ∃ h', f_call (fib_plain 6) [5] [] plain_heap = (Ok (fib_value 5), h')
        ∧ plain_fib_heap h' (0 + (2 * fib_value 5 - 1)) 0
        ∧ Z.of_nat (length (out h'))
          = Z.of_nat (length (out plain_heap)) + 2 * (2 * fib_value 5 - 1)
        ∧ dicts h' = dicts plain_heap.
Proof.
  apply (fib_without_memo 6 5 plain_heap 0 0 module_plain_fib_heap). vm_compute. lia.
Defined.
